(** * wine_ratings.py: a shallow embedding and its properties

    The program reads a WhatsApp export ([_chat.txt]), pairs every photo
    attachment with the rating line that follows it ([parse_chat]), and
    renders the pairs, best rating first, as one HTML page with the
    photos inlined as base64 data URIs ([generate_html]).

    Modelling conventions.
    - A Python [str] is a list of code points ([char := N]).
    - The character tables of CPython (whitespace, decimal digits and
      their values, [str.lower]) are not part of the repository; they are
      the fields of the class [Unicode].  [ascii_db] is the instance that
      agrees with CPython on the code points below 128.
    - Python exceptions are the [Raise] results of the type [result].
    - [int] is applied by the program to a match of [\d+] only; the model
      gives it the decimal value of the run, without CPython's optional
      limit on the length of the numeral.
    - The export directory is a function from photo names to the state
      of the file [export_dir / name]. *)

From Stdlib Require Import List Bool Arith ZArith NArith Lia.
From Stdlib.Strings Require Import Ascii Byte.
From Stdlib.Strings Require String.
Import String.StringSyntax.
From Stdlib Require Import Permutation Sorted.
From Stdlib Require DecimalString.
Import ListNotations.

Set Implicit Arguments.

Local Open Scope list_scope.

(** ** Strings *)

Definition char := N.
Definition str := list char.

(** A literal of the source text (ASCII only) as a [str]. *)
Definition lit (s : String.string) : str :=
  List.map N_of_ascii (String.list_ascii_of_string s).

Delimit Scope string_scope with string.
Arguments lit s%_string.

Definition c_newline : char := 10%N.
Definition c_quote : char := 34%N.
Definition c_equals : char := 61%N.
Definition c_gt : char := 62%N.
Definition c_rbracket : char := 93%N.

Section ListScan.
Variable A : Type.
Variable p : A -> bool.

Fixpoint take_while (l : list A) : list A :=
  match l with
  | [] => []
  | x :: l' => if p x then x :: take_while l' else []
  end.

Fixpoint drop_while (l : list A) : list A :=
  match l with
  | [] => []
  | x :: l' => if p x then drop_while l' else l
  end.
End ListScan.

Fixpoint str_eqb (a b : str) : bool :=
  match a, b with
  | [], [] => true
  | x :: a', y :: b' => N.eqb x y && str_eqb a' b'
  | _, _ => false
  end.

(** [s.startswith(pre)] *)
Fixpoint starts_with (pre s : str) : bool :=
  match pre, s with
  | [], _ => true
  | x :: pre', y :: s' => N.eqb x y && starts_with pre' s'
  | _ :: _, [] => false
  end.

(** [sub in s] *)
Fixpoint contains (sub s : str) : bool :=
  starts_with sub s ||
  match s with
  | [] => false
  | _ :: s' => contains sub s'
  end.

(** [s.split(sep)] for a separator of one character: never empty. *)
Fixpoint split (sep : char) (s : str) : list str :=
  match s with
  | [] => [[]]
  | c :: s' =>
      if N.eqb c sep then [] :: split sep s'
      else match split sep s' with
           | h :: t => (c :: h) :: t
           | [] => [[c]]
           end
  end.

(** ** Exceptions *)

Inductive exn : Type :=
| IndexError
| OSError
| OutOfFuel.

Inductive result (A : Type) : Type :=
| Ok (a : A)
| Raise (e : exn).

Arguments Ok {A} a.
Arguments Raise {A} e.

Definition bind {A B : Type} (r : result A) (k : A -> result B) : result B :=
  match r with
  | Ok a => k a
  | Raise e => Raise e
  end.

Notation "x <- r ;; k" := (bind r (fun x => k))
  (at level 61, r at next level, right associativity).

(** [l[i]] for [i >= 0] *)
Definition getitem {A : Type} (l : list A) (i : nat) : result A :=
  match nth_error l i with
  | Some x => Ok x
  | None => Raise IndexError
  end.

(** [l[-1]] *)
Definition getitem_last {A : Type} (l : list A) : result A :=
  match rev l with
  | x :: _ => Ok x
  | [] => Raise IndexError
  end.

(** ** The character tables *)

Class Unicode : Type := {
  (** [Py_UNICODE_ISSPACE]: what [str.strip] removes and [\s] matches *)
  isspace : char -> bool;
  (** [Py_UNICODE_ISDECIMAL]: what [\d] matches *)
  isdecimal : char -> bool;
  (** [Py_UNICODE_TODECIMAL]: the value [int] gives to a decimal digit *)
  todecimal : char -> Z;
  (** [str.lower] *)
  lower : str -> str;
  todecimal_range : forall c, isdecimal c = true -> (0 <= todecimal c <= 9)%Z;
  decimal_not_space : forall c, isdecimal c = true -> isspace c = false;
  rbracket_not_space : isspace c_rbracket = false
}.

Module Ascii7.
(** The tables of CPython restricted to the code points below 128. *)

Definition isspace (c : char) : bool :=
  ((9 <=? c) && (c <=? 13) || (28 <=? c) && (c <=? 32))%N.

Definition isdecimal (c : char) : bool :=
  ((48 <=? c) && (c <=? 57))%N.

Definition todecimal (c : char) : Z := (Z.of_N c - 48)%Z.

Definition lower_char (c : char) : char :=
  if ((65 <=? c) && (c <=? 90))%N then (c + 32)%N else c.

Definition lower (s : str) : str := List.map lower_char s.
End Ascii7.

(** ** The transcript parser *)

(** One entry of the list [wines]: the dict with the keys ['photo'],
    ['rating'] and ['comment']. *)
Record wine : Type := {
  photo : str;
  rating : Z;
  comment : str
}.

Section Parser.
Context {U : Unicode}.

Definition lstrip (s : str) : str := drop_while isspace s.
Definition rstrip (s : str) : str := rev (drop_while isspace (rev s)).

(** [s.strip()] *)
Definition strip (s : str) : str := lstrip (rstrip s).

(** [re.search(r'(\d+)', s)]: group 1 of the leftmost match, which is
    greedy, or [None]. *)
Definition search_digits (s : str) : option str :=
  match take_while isdecimal (drop_while (fun c => negb (isdecimal c)) s) with
  | [] => None
  | run => Some run
  end.

(** [int(run)] for a run of decimal digits. *)
Definition int_of_digits (run : str) : Z :=
  fold_left (fun acc c => (10 * acc + todecimal c)%Z) run 0%Z.

(** [re.sub(r'^\d+\s*', '', s)]: the pattern is anchored at the start
    of the string, so at most one match is replaced. *)
Definition sub_leading_digits (s : str) : str :=
  match take_while isdecimal s with
  | [] => s
  | _ :: _ => drop_while isspace (drop_while isdecimal s)
  end.
End Parser.

(** The shortest [g] with [t = g ++ '>' :: _] and no newline in [g]. *)
Fixpoint until_gt (t : str) : option str :=
  match t with
  | [] => None
  | c :: t' =>
      if N.eqb c c_gt then Some []
      else if N.eqb c c_newline then None
      else option_map (cons c) (until_gt t')
  end.

(** [(.+?)>] matched at the start of [t]: the dot takes any character
    but a newline, one at least, and as few as possible. *)
Definition dot_plus_lazy_gt (t : str) : option str :=
  match t with
  | [] => None
  | c :: t' =>
      if N.eqb c c_newline then None
      else option_map (cons c) (until_gt t')
  end.

Definition attached_prefix : str := lit "<attached: ".

(** [re.match(r'<attached: (.+?)>', s)]: group 1 of the match at the
    start of [s]. *)
Definition match_attached (s : str) : option str :=
  if starts_with attached_prefix s
  then dot_plus_lazy_gt (skipn (length attached_prefix) s)
  else None.

(** [re.search(r'<attached: (.+?)>', s)]: group 1 of the leftmost match. *)
Fixpoint search_attached (s : str) : option str :=
  match match_attached s with
  | Some g => Some g
  | None =>
      match s with
      | [] => None
      | _ :: s' => search_attached s'
      end
  end.

Section ParseChat.
Context {U : Unicode}.

(** The body of the [while] loop of [parse_chat] at index [i]: the dict
    it appends to [wines], if any.  [lines] is what [f.readlines()]
    returned. *)
Definition record_at (lines : list str) (i : nat) : result (option wine) :=
  raw <- getitem lines i ;;
  let line := strip raw in
  if contains (lit "<attached:") line && contains (lit ".jpg") (lower line)
  then
    match search_attached line with
    | Some photo_name =>
        if i + 1 <? length lines then
          raw_next <- getitem lines (i + 1) ;;
          let next_line := strip raw_next in
          suffix <- getitem_last (split c_rbracket next_line) ;;
          match search_digits suffix with
          | Some digits =>
              let rating := int_of_digits digits in
              let rating := if (rating >? 10)%Z then 10%Z else rating in
              suffix' <- getitem_last (split c_rbracket next_line) ;;
              let comment := strip (sub_leading_digits suffix') in
              Ok (Some {| photo := photo_name;
                          rating := rating;
                          comment := comment |})
          | None => Ok None
          end
        else Ok None
    | None => Ok None
    end
  else Ok None.

(** [while i < len(lines): ...; i += 1] *)
Fixpoint while_loop (fuel : nat) (lines : list str) (i : nat)
    (wines : list wine) : result (list wine) :=
  if i <? length lines then
    match fuel with
    | O => Raise OutOfFuel
    | S fuel' =>
        new <- record_at lines i ;;
        let wines' := match new with
                      | Some w => wines ++ [w]
                      | None => wines
                      end in
        while_loop fuel' lines (i + 1) wines'
    end
  else Ok wines.

(** [parse_chat], from the list [lines] that [f.readlines()] returned on:
    [i = 0], [wines = []], the loop, [return wines].  The loop runs at
    most [len(lines)] times, which is the fuel. *)
Definition parse_chat (lines : list str) : result (list wine) :=
  while_loop (length lines) lines 0 [].

(** What index [i] contributes to the result of [parse_chat]. *)
Definition wines_at (lines : list str) (i : nat) : list wine :=
  match record_at lines i with
  | Ok (Some w) => [w]
  | _ => []
  end.
End ParseChat.

(** ** The asset encoder *)

(** What [export_dir / name] is on disk: no such path, a file that can
    be read, or a path that exists and whose [open] or [read] fails
    (a directory, a file without read permission). *)
Inductive file_state : Type :=
| Missing
| Regular (content : list byte)
| Unreadable.

Definition directory := str -> file_state.

(** [photo_path.exists()] *)
Definition path_exists (fs : directory) (name : str) : bool :=
  match fs name with
  | Missing => false
  | _ => true
  end.

Definition b64_alphabet : str :=
  lit "ABCDEFGHIJKLMNOPQRSTUVWXYZabcdefghijklmnopqrstuvwxyz0123456789+/".

Definition b64_char (n : N) : char := nth (N.to_nat n) b64_alphabet c_equals.

(** [base64.b64encode(bs).decode('utf-8')] (RFC 4648, section 4): three
    bytes give four characters of six bits each; one or two bytes left
    over are padded with [=]. *)
Fixpoint b64encode (bs : list byte) : str :=
  match bs with
  | [] => []
  | [a] =>
      let x := Byte.to_N a in
      [b64_char (x / 4); b64_char (x mod 4 * 16); c_equals; c_equals]%N
  | [a; b] =>
      let x := Byte.to_N a in
      let y := Byte.to_N b in
      [b64_char (x / 4); b64_char (x mod 4 * 16 + y / 16);
       b64_char (y mod 16 * 4); c_equals]%N
  | a :: b :: c :: rest =>
      let x := Byte.to_N a in
      let y := Byte.to_N b in
      let z := Byte.to_N c in
      [b64_char (x / 4); b64_char (x mod 4 * 16 + y / 16);
       b64_char (y mod 16 * 4 + z / 64); b64_char (z mod 64)]%N
      ++ b64encode rest
  end.

(** [image_to_base64(export_dir / name)] *)
Definition image_to_base64 (fs : directory) (name : str) : result str :=
  match fs name with
  | Regular content => Ok (b64encode content)
  | _ => Raise OSError
  end.

(** The position of a character in the alphabet. *)
Definition b64_index (c : char) : option N :=
  (if (65 <=? c) && (c <=? 90) then Some (c - 65)
   else if (97 <=? c) && (c <=? 122) then Some (c - 71)
   else if (48 <=? c) && (c <=? 57) then Some (c + 4)
   else if c =? 43 then Some 62
   else if c =? 47 then Some 63
   else None)%N.

Definition bytes_of (ns : list N) : option (list byte) :=
  fold_right (fun n acc =>
                match Byte.of_N n, acc with
                | Some b, Some bs => Some (b :: bs)
                | _, _ => None
                end) (Some []) ns.

(** The decoder of RFC 4648 [base64.b64decode(s, validate=True)]: groups
    of four characters, padding in the last group only. *)
Fixpoint b64decode (s : str) : option (list byte) :=
  match s with
  | [] => Some []
  | c1 :: c2 :: c3 :: c4 :: rest =>
      match b64_index c1, b64_index c2 with
      | Some s1, Some s2 =>
          if N.eqb c3 c_equals then
            match rest with
            | [] => if N.eqb c4 c_equals
                    then bytes_of [s1 * 4 + s2 / 16]%N
                    else None
            | _ :: _ => None
            end
          else
            match b64_index c3 with
            | Some s3 =>
                if N.eqb c4 c_equals then
                  match rest with
                  | [] => bytes_of [s1 * 4 + s2 / 16;
                                    s2 mod 16 * 16 + s3 / 4]%N
                  | _ :: _ => None
                  end
                else
                  match b64_index c4, b64decode rest with
                  | Some s4, Some bs =>
                      option_map (fun g => g ++ bs)
                        (bytes_of [s1 * 4 + s2 / 16;
                                   s2 mod 16 * 16 + s3 / 4;
                                   s3 mod 4 * 64 + s4]%N)
                  | _, _ => None
                  end
            | None => None
            end
      | _, _ => None
      end
  | _ => None
  end.

(** ** The gallery renderer *)

Section Sorted.
Variable A : Type.
Variable key : A -> Z.
Variable reverse : bool.

(** Whether [y] has to stay in front of an [x] that stood before it. *)
Definition stays_before (y x : A) : bool :=
  if reverse then (key x <? key y)%Z else (key y <? key x)%Z.

Fixpoint insert_sorted (x : A) (l : list A) : list A :=
  match l with
  | [] => [x]
  | y :: l' => if stays_before y x then y :: insert_sorted x l' else x :: l
  end.

(** [sorted(l, key=key, reverse=reverse)].  Python's sort is stable,
    also with [reverse=True]: elements with equal keys keep their
    order.  The result of a stable sort does not depend on the
    algorithm (see [py_sorted_unique]); this one inserts from the
    right. *)
Definition py_sorted (l : list A) : list A :=
  fold_right insert_sorted [] l.
End Sorted.

Definition quote : str := [c_quote].
Definition nl : str := [c_newline].

(** The pieces of a line of text between its double quotes. *)
Fixpoint with_quotes (pieces : list String.string) : str :=
  match pieces with
  | [] => []
  | [p] => lit p
  | p :: rest => lit p ++ quote ++ with_quotes rest
  end.

Fixpoint unlines (ls : list str) : str :=
  match ls with
  | [] => []
  | l :: rest => l ++ nl ++ unlines rest
  end.

(** The text [html] starts with (lines 48-69 of the source). *)
Definition html_head : str :=
  unlines (List.map with_quotes
    [ ["<!DOCTYPE html>"];
      ["<html>"];
      ["<head>"];
      ["    <meta charset="; "UTF-8"; ">"];
      ["    <meta name="; "viewport"; " content="; "width=device-width, initial-scale=1.0"; ">"];
      ["    <title>Wine Ratings</title>"];
      ["    <style>"];
      ["        body { font-family: Arial, sans-serif; margin: 0; padding: 10px; background: #f5f5f5; }"];
      ["        .search { position: sticky; top: 0; background: white; padding: 10px; box-shadow: 0 2px 4px rgba(0,0,0,0.1); margin-bottom: 10px; z-index: 100; }"];
      ["        input { width: 100%; padding: 10px; font-size: 16px; border: 1px solid #ddd; border-radius: 4px; box-sizing: border-box; }"];
      ["        .wine { background: white; margin: 10px 0; padding: 10px; border-radius: 8px; box-shadow: 0 2px 4px rgba(0,0,0,0.1); }"];
      ["        .wine img { width: 100%; max-width: 400px; border-radius: 4px; }"];
      ["        .rating { font-size: 32px; font-weight: bold; color: #d4af37; margin: 10px 0; }"];
      ["        .comment { color: #666; font-style: italic; margin: 10px 0; font-size: 16px; }"];
      ["    </style>"];
      ["</head>"];
      ["<body>"];
      ["    <div class="; "search"; ">"];
      ["        <input type="; "text"; " id="; "searchInput"; " placeholder="; "Cerca vino..."; " onkeyup="; "filterWines()"; ">"];
      ["    </div>"];
      ["    <div id="; "wines"; ">"] ]%string).

(** The text added after the loop (lines 88-102 of the source). *)
Definition html_tail : str :=
  unlines (List.map with_quotes
    [ [String.EmptyString];
      ["    </div>"];
      ["    <script>"];
      ["        function filterWines() {"];
      ["            const input = document.getElementById('searchInput').value.toLowerCase();"];
      ["            const wines = document.querySelectorAll('.wine');"];
      ["            wines.forEach(wine => {"];
      ["                const searchText = wine.getAttribute('data-search');"];
      ["                wine.style.display = searchText.includes(input) ? 'block' : 'none';"];
      ["            });"];
      ["        }"];
      ["    </script>"];
      ["</body>"];
      ["</html>"] ]%string).

(** [str(n)] for an [int]. *)
Definition str_of_int (n : Z) : str :=
  lit (DecimalString.NilZero.string_of_int (Z.to_int n)).

Section Renderer.
Context {U : Unicode}.

(** The f-string appended for one wine (lines 80-86 of the source). *)
Definition wine_block (w : wine) (img_base64 : str) : str :=
  nl ++
  lit "        <div class=" ++ quote ++ lit "wine" ++ quote
    ++ lit " data-search=" ++ quote ++ lower (comment w) ++ quote
    ++ lit ">" ++ nl ++
  lit "            <img src=" ++ quote ++ lit "data:image/jpeg;base64,"
    ++ img_base64 ++ quote ++ lit ">" ++ nl ++
  lit "            <div class=" ++ quote ++ lit "rating" ++ quote ++ lit ">"
    ++ str_of_int (rating w) ++ lit "/10</div>" ++ nl ++
  lit "            <div class=" ++ quote ++ lit "comment" ++ quote ++ lit ">"
    ++ comment w ++ lit "</div>" ++ nl ++
  lit "        </div>" ++ nl.

(** [for wine in wines_sorted: ...] *)
Fixpoint render_loop (fs : directory) (ws : list wine) (html : str)
    : result str :=
  match ws with
  | [] => Ok html
  | w :: ws' =>
      if path_exists fs (photo w) then
        img_base64 <- image_to_base64 fs (photo w) ;;
        render_loop fs ws' (html ++ wine_block w img_base64)
      else render_loop fs ws' html
  end.

Definition generate_html (wines : list wine) (fs : directory)
    : result str :=
  let html := html_head in
  let wines_sorted := py_sorted rating true wines in
  html <- render_loop fs wines_sorted html ;;
  Ok (html ++ html_tail).

(** The wines of [ws] whose photo is on disk, in the order of [ws]. *)
Definition on_disk (fs : directory) (ws : list wine) : list wine :=
  filter (fun w => path_exists fs (photo w)) ws.

(** The block of a wine whose photo can be read. *)
Definition block_of (fs : directory) (w : wine) : str :=
  match fs (photo w) with
  | Regular content => wine_block w (b64encode content)
  | _ => []
  end.
End Renderer.

(** ** The command line *)

(** What [export_dir / '_chat.txt'] is on disk: no such path, a text
    file with the lines that [f.readlines()] returns, or a path that
    exists and cannot be read as UTF-8 text. *)
Inductive chat_state : Type :=
| NoChat
| Chat (lines : list str)
| BadChat.

(** What [main] finds outside the program, for every directory argument:
    the text of a path of the directory ([str(export_dir / name)]), the
    state of its chat file, its photos, and whether its
    [wine_ratings.html] can be opened for writing. *)
Record world : Type := {
  path_text : str -> str -> str;
  chat_file : str -> chat_state;
  photos : str -> directory;
  writable : str -> bool
}.

(** How the run ends: [main] returns, [sys.exit(code)] is called, or an
    exception is not caught. *)
Inductive ending : Type :=
| Returned
| SysExit (code : Z)
| Uncaught (e : exn).

(** The exit status of the process. *)
Definition exit_status (e : ending) : Z :=
  match e with
  | Returned => 0%Z
  | SysExit code => code
  | Uncaught _ => 1%Z
  end.

(** What the run leaves behind: the lines printed, and the file written
    (the text of its path and its content). *)
Record effects : Type := {
  printed : list str;
  written : option (str * str)
}.

Definition proc (A : Type) : Type := effects -> effects * (A + ending).

Definition ret {A : Type} (a : A) : proc A := fun s => (s, inl a).

Definition pbind {A B : Type} (p : proc A) (k : A -> proc B) : proc B :=
  fun s =>
    match p s with
    | (s', inl a) => k a s'
    | (s', inr e) => (s', inr e)
    end.

Notation "x <~ p ;; k" := (pbind p (fun x => k))
  (at level 61, p at next level, right associativity).
Notation "p ;;; k" := (pbind p (fun _ => k))
  (at level 61, right associativity).

(** [print(line)] *)
Definition print (line : str) : proc unit :=
  fun s => ({| printed := printed s ++ [line]; written := written s |},
            inl tt).

(** [sys.exit(code)] *)
Definition sys_exit {A : Type} (code : Z) : proc A :=
  fun s => (s, inr (SysExit code)).

(** A call that may raise, with nothing around it to catch. *)
Definition call {A : Type} (r : result A) : proc A :=
  fun s =>
    match r with
    | Ok a => (s, inl a)
    | Raise e => (s, inr (Uncaught e))
    end.

(** [with open(path, 'w', encoding='utf-8') as f: f.write(text)] *)
Definition write_file (ok : bool) (path text : str) : proc unit :=
  fun s =>
    if ok then ({| printed := printed s; written := Some (path, text) |},
                inl tt)
    else (s, inr (Uncaught OSError)).

(** [with open(chat_file, 'r', encoding='utf-8') as f: f.readlines()] *)
Definition read_lines (c : chat_state) : result (list str) :=
  match c with
  | Chat lines => Ok lines
  | NoChat | BadChat => Raise OSError
  end.

Section Main.
Context {U : Unicode}.

(** [parse_chat(chat_file)]: the file is read, then scanned. *)
Definition parse_chat_file (c : chat_state) : result (list wine) :=
  lines <- read_lines c ;;
  parse_chat lines.

Definition main (e : world) (argv : list str) : proc unit :=
  if length argv <? 2 then
    print (lit "Usage: python wine_ratings.py /path/to/whatsapp/export/") ;;;
    sys_exit 1
  else
    let export_dir := nth 1 argv [] in
    let chat := path_text e export_dir (lit "_chat.txt") in
    (match chat_file e export_dir with
     | NoChat =>
         print (lit "Error: " ++ chat ++ lit " not found") ;;;
         sys_exit 1
     | _ => ret tt
     end) ;;;
    print (lit "Parsing chat...") ;;;
    wines <~ call (parse_chat_file (chat_file e export_dir)) ;;
    print (lit "Found " ++ str_of_int (Z.of_nat (length wines))
             ++ lit " wines") ;;;
    print (lit "Generating HTML...") ;;;
    html <~ call (generate_html wines (photos e export_dir)) ;;
    let output_file := path_text e export_dir (lit "wine_ratings.html") in
    write_file (writable e export_dir) output_file html ;;;
    print (lit "Done! Open " ++ output_file).

(** The run of the script from a fresh process. *)
Definition run_main (e : world) (argv : list str) : effects * ending :=
  match main e argv {| printed := []; written := None |} with
  | (s, inl _) => (s, Returned)
  | (s, inr x) => (s, x)
  end.
End Main.

(** ** Vocabulary of the statements *)

(** [suffix] is the text of [s] after its last [sep], or all of [s] when
    there is none. *)
Definition is_suffix_after_last (sep : char) (s suffix : str) : Prop :=
  (~ In sep s /\ suffix = s) \/
  (exists pre, s = pre ++ sep :: suffix /\ ~ In sep suffix).

(** [s.split(sep)[-1]] as a total function. *)
Definition last_field (sep : char) (s : str) : str := last (split sep s) [].

(** [sub] occurs in [s]. *)
Definition is_substring (sub s : str) : Prop :=
  exists pre post, s = pre ++ sub ++ post.

(** [a] may stand in front of [b] in a list sorted by [key]: its key is
    not smaller when [reverse] is set, not larger when it is not. *)
Definition in_order (A : Type) (key : A -> Z) (reverse : bool) (a b : A)
    : Prop :=
  stays_before key reverse b a = false.

(** The elements of [l] whose key is [k], in the order of [l]. *)
Definition with_key (A : Type) (key : A -> Z) (k : Z) (l : list A) : list A :=
  filter (fun a => Z.eqb (key a) k) l.

(** The character of index [n] has index [n], and is neither the
    padding nor a double quote. *)
Definition b64_char_checked (n : N) : bool :=
  match b64_index (b64_char n) with
  | Some m => N.eqb m n
  | None => false
  end
  && negb (N.eqb (b64_char n) c_equals)
  && negb (N.eqb (b64_char n) c_quote).

(** The parts of the page that do not depend on the wines. *)
Definition shell_parts_head : list str :=
  List.map with_quotes
    [ ["<!DOCTYPE html>"];
      ["<meta charset="; "UTF-8"; ">"];
      ["<meta name="; "viewport"; " content="];
      ["<style>"];
      ["</style>"];
      ["<input type="; "text"; " id="; "searchInput"; " placeholder="];
      ["<div id="; "wines"; ">"] ]%string.

Definition shell_parts_tail : list str :=
  List.map with_quotes
    [ ["</div>"];
      ["<script>"];
      ["function filterWines() {"];
      ["</script>"];
      ["</body>"];
      ["</html>"] ]%string.

(** [if rating > 10: rating = 10] *)
Definition clamp (n : Z) : Z := if (n >? 10)%Z then 10%Z else n.

Section Vocabulary.
Context {U : Unicode}.

Definition nondecimal (c : char) : bool := negb (isdecimal c).

Definition all_space (s : str) : Prop := forallb isspace s = true.
Definition all_decimal (s : str) : Prop := forallb isdecimal s = true.

(** No character of [s] is a decimal digit. *)
Definition has_no_digit (s : str) : Prop :=
  forall c, In c s -> isdecimal c = false.

Definition starts_with_digit (s : str) : Prop :=
  match s with
  | [] => False
  | c :: _ => isdecimal c = true
  end.

Definition starts_with_space (s : str) : Prop :=
  match s with
  | [] => False
  | c :: _ => isspace c = true
  end.

Definition ends_with_space (s : str) : Prop := starts_with_space (rev s).

(** [run] is the first maximal run of decimal digits of [s]. *)
Definition is_first_digit_run (s run : str) : Prop :=
  exists pre post,
    s = pre ++ run ++ post /\ has_no_digit pre /\
    run <> [] /\ all_decimal run /\ ~ starts_with_digit post.

(** [t] is [s] without the whitespace at its two ends. *)
Definition is_trimmed (s t : str) : Prop :=
  exists w1 w2,
    s = w1 ++ t ++ w2 /\ all_space w1 /\ all_space w2 /\
    ~ starts_with_space t /\ ~ ends_with_space t.

(** The value of a numeral in base ten, most significant digit first. *)
Fixpoint decimal_value (run : str) : Z :=
  match run with
  | [] => 0%Z
  | c :: run' =>
      (todecimal c * 10 ^ Z.of_nat (length run') + decimal_value run')%Z
  end.

(** [c] is [suffix] without one leading run of digits, if it starts
    with one, and without the whitespace at the two ends of what is
    left. *)
Definition is_comment_of (suffix c : str) : Prop :=
  (starts_with_digit suffix ->
   exists run rest,
     suffix = run ++ rest /\ run <> [] /\ all_decimal run /\
     ~ starts_with_digit rest /\ is_trimmed rest c) /\
  (~ starts_with_digit suffix -> is_trimmed suffix c) /\
  (all_decimal suffix -> c = []).

(** The photos that exist and cannot be read. *)
Definition is_unreadable (fs : directory) (w : wine) : bool :=
  match fs (photo w) with
  | Unreadable => true
  | _ => false
  end.
End Vocabulary.

(** ** More vocabulary *)

(** [s] holds a marker [<attached: NAME>] with a name that is not empty
    and has no newline. *)
Definition has_marker (s : str) : Prop :=
  exists pre name post,
    s = pre ++ attached_prefix ++ name ++ c_gt :: post /\
    name <> [] /\ ~ In c_newline name.

(** Every character is a letter of the base64 alphabet or the padding. *)
Definition is_b64_text (s : str) : Prop :=
  forall c, In c s -> In c b64_alphabet \/ c = c_equals.

Section MoreVocabulary.
Context {U : Unicode}.

Definition has_digit (s : str) : Prop :=
  exists c, In c s /\ isdecimal c = true.

(** The lines that a run prints when nothing stops it. *)
Definition progress_lines (e : world) (dir : str) (n : nat) : list str :=
  [ lit "Parsing chat...";
    lit "Found " ++ str_of_int (Z.of_nat n) ++ lit " wines";
    lit "Generating HTML...";
    lit "Done! Open " ++ path_text e dir (lit "wine_ratings.html") ].
End MoreVocabulary.

(** ** Sample transcripts and directories *)

(** A rating above ten. *)
Definition ex_clamp : list str :=
  [ lit "<attached: photo1.jpg>"; lit "[12:01] 15 excellent" ].

Definition ex_clamp_wine : wine :=
  {| photo := lit "photo1.jpg"; rating := 10; comment := lit "15 excellent" |}.

(** The scenario of the documentation: a rating after a bracketed prefix. *)
Definition ex_nebbiolo : list str :=
  [ lit "<attached: photo1.jpg>"; lit "[12:01] 8 Lovely nebbiolo" ].

Definition ex_nebbiolo_wine : wine :=
  {| photo := lit "photo1.jpg"; rating := 8;
     comment := lit "8 Lovely nebbiolo" |}.

(** An attachment followed by a line without digits after the bracket,
    then a rated attachment, then an attachment on the last line. *)
Definition ex_unrated : list str :=
  [ lit "<attached: a.jpg>"; lit "[12:01] no rating here";
    lit "<attached: b.jpg>"; lit "9 superb";
    lit "<attached: c.jpg>" ].

Definition ex_unrated_wine : wine :=
  {| photo := lit "b.jpg"; rating := 9; comment := lit "superb" |}.

(** [.jpg] on the line, outside the marker. *)
Definition ex_jpg_outside : list str :=
  [ lit "label.jpg <attached: tasting.pdf>"; lit "7 ok" ].

Definition ex_jpg_outside_wine : wine :=
  {| photo := lit "tasting.pdf"; rating := 7; comment := lit "ok" |}.

(** A rating line without bracket that starts with whitespace. *)
Definition ex_indented : list str :=
  [ lit "<attached: a.jpg>"; lit "  7 good" ].

Definition ex_indented_wine : wine :=
  {| photo := lit "a.jpg"; rating := 7; comment := lit "good" |}.

(** A directory with [a.jpg] (the bytes of [Man]) and [b.jpg] (the
    bytes of [Ma]), and nothing else. *)
Definition ex_dir : directory :=
  fun name =>
    if str_eqb name (lit "a.jpg") then Regular [x4d; x61; x6e]
    else if str_eqb name (lit "b.jpg") then Regular [x4d; x61]
    else Missing.

Definition ex_wine_a : wine :=
  {| photo := lit "a.jpg"; rating := 4; comment := lit "Thin" |}.
Definition ex_wine_b : wine :=
  {| photo := lit "b.jpg"; rating := 9; comment := lit "Great" |}.
Definition ex_wine_gone : wine :=
  {| photo := lit "c.jpg"; rating := 10; comment := lit "Lost" |}.

(** A world with one export directory, [export], that holds the chat
    [ex_unrated], the photos of [ex_dir], and can be written to. *)
Definition ex_world : world :=
  {| path_text := fun dir name => dir ++ lit "/" ++ name;
     chat_file := fun dir =>
       if str_eqb dir (lit "export") then Chat ex_unrated else NoChat;
     photos := fun _ => ex_dir;
     writable := fun _ => true |}.

(** * Properties *)

Lemma ascii_todecimal_range (c : char) :
  Ascii7.isdecimal c = true -> (0 <= Ascii7.todecimal c <= 9)%Z.
Proof.
  unfold Ascii7.isdecimal, Ascii7.todecimal. intros H.
  apply andb_prop in H. destruct H as [H1 H2].
  apply N.leb_le in H1. apply N.leb_le in H2. lia.
Qed.

Lemma ascii_decimal_not_space (c : char) :
  Ascii7.isdecimal c = true -> Ascii7.isspace c = false.
Proof.
  unfold Ascii7.isdecimal, Ascii7.isspace. intros H.
  apply andb_prop in H. destruct H as [H1 H2].
  apply N.leb_le in H1. apply N.leb_le in H2.
  destruct (N.leb_spec 9 c), (N.leb_spec c 13), (N.leb_spec 28 c),
    (N.leb_spec c 32); simpl; try reflexivity; lia.
Qed.

Instance ascii_db : Unicode := {|
  isspace := Ascii7.isspace;
  isdecimal := Ascii7.isdecimal;
  todecimal := Ascii7.todecimal;
  lower := Ascii7.lower;
  todecimal_range := ascii_todecimal_range;
  decimal_not_space := ascii_decimal_not_space;
  rbracket_not_space := eq_refl
|}.

(** ** Scanning lists *)

Section ListScanFacts.
Variable A : Type.
Variable p : A -> bool.

Lemma take_drop_while (l : list A) :
  take_while p l ++ drop_while p l = l.
Proof.
  induction l as [|x l IH]; simpl; [reflexivity|].
  destruct (p x); simpl; [now rewrite IH | reflexivity].
Qed.

Lemma take_while_all (l : list A) : forallb p (take_while p l) = true.
Proof.
  induction l as [|x l IH]; simpl; [reflexivity|].
  destruct (p x) eqn:E; simpl; [now rewrite E | reflexivity].
Qed.

Lemma drop_while_head (l : list A) :
  match drop_while p l with
  | [] => True
  | x :: _ => p x = false
  end.
Proof.
  induction l as [|x l IH]; simpl; [exact I|].
  destruct (p x) eqn:E; [exact IH | exact E].
Qed.

Lemma take_while_app_stop (l r : list A) :
  match r with [] => True | x :: _ => p x = false end ->
  forallb p l = true ->
  take_while p (l ++ r) = l.
Proof.
  intros Hr. induction l as [|x l IH]; simpl; intros Hl.
  - destruct r as [|y r]; simpl; [reflexivity | now rewrite Hr].
  - apply andb_prop in Hl. destruct Hl as [Hx Hl].
    rewrite Hx. now rewrite IH.
Qed.

Lemma drop_while_app_all (l r : list A) :
  forallb p l = true -> drop_while p (l ++ r) = drop_while p r.
Proof.
  induction l as [|x l IH]; simpl; intros Hl; [reflexivity|].
  apply andb_prop in Hl. destruct Hl as [Hx Hl].
  rewrite Hx. now apply IH.
Qed.

Lemma drop_while_all (l : list A) :
  forallb p l = true -> drop_while p l = [].
Proof.
  intros H. rewrite <- (app_nil_r l) at 1.
  now rewrite drop_while_app_all.
Qed.

Lemma drop_while_app_stop (l r : list A) (x : A) :
  forallb p l = true -> p x = false ->
  drop_while p (l ++ x :: r) = x :: r.
Proof.
  intros Hl Hx. rewrite drop_while_app_all by assumption.
  simpl. now rewrite Hx.
Qed.

(** Dropping from the right end: the list is a kept part followed by
    elements that all satisfy [p], and the kept part does not end in
    such an element. *)
Lemma rev_drop_while_rev (l : list A) :
  exists w, l = rev (drop_while p (rev l)) ++ w /\ forallb p w = true.
Proof.
  exists (rev (take_while p (rev l))). split.
  - rewrite <- rev_app_distr, take_drop_while. now rewrite rev_involutive.
  - rewrite forallb_forall. intros x Hx. apply in_rev in Hx.
    pose proof (take_while_all (rev l)) as H.
    rewrite forallb_forall in H. now apply H.
Qed.
End ListScanFacts.

Lemma forallb_negb_false (A : Type) (p : A -> bool) (l : list A) (x : A) :
  forallb p l = true -> p x = false -> ~ In x l.
Proof.
  intros H Hx Hin. rewrite forallb_forall in H.
  specialize (H x Hin). congruence.
Qed.

(** ** Splitting at a separator *)

Lemma split_not_nil (sep : char) (s : str) : split sep s <> [].
Proof.
  destruct s as [|c s]; simpl; [discriminate|].
  destruct (N.eqb c sep); [discriminate|].
  destruct (split sep s); discriminate.
Qed.

Lemma getitem_last_last (A : Type) (l : list A) (d : A) :
  l <> [] -> getitem_last l = Ok (last l d).
Proof.
  intros Hl. unfold getitem_last.
  destruct (exists_last Hl) as [l' [x ->]].
  rewrite rev_app_distr, last_last. reflexivity.
Qed.

Lemma getitem_last_split (sep : char) (s : str) :
  getitem_last (split sep s) = Ok (last_field sep s).
Proof. apply getitem_last_last, split_not_nil. Qed.

Lemma split_no_sep (sep : char) (s : str) : ~ In sep s -> split sep s = [s].
Proof.
  induction s as [|c s IH]; simpl; intros H; [reflexivity|].
  destruct (N.eqb_spec c sep) as [->|Hc]; [tauto|].
  rewrite IH by tauto. reflexivity.
Qed.

Lemma split_app (sep : char) (a b : str) :
  split sep (a ++ sep :: b) = split sep a ++ split sep b.
Proof.
  induction a as [|c a IH]; simpl.
  - now rewrite N.eqb_refl.
  - destruct (N.eqb c sep); [now rewrite IH|].
    rewrite IH. destruct (split sep a) as [|h t] eqn:E.
    + now apply split_not_nil in E.
    + reflexivity.
Qed.

Lemma last_app_not_nil (A : Type) (l r : list A) (d : A) :
  r <> [] -> last (l ++ r) d = last r d.
Proof.
  intros Hr. destruct (exists_last Hr) as [r' [x ->]].
  now rewrite app_assoc, !last_last.
Qed.

Lemma last_field_no_sep (sep : char) (s : str) :
  ~ In sep s -> last_field sep s = s.
Proof. intros H. unfold last_field. now rewrite split_no_sep. Qed.

Lemma last_field_app (sep : char) (a b : str) :
  ~ In sep b -> last_field sep (a ++ sep :: b) = b.
Proof.
  intros H. unfold last_field. rewrite split_app.
  rewrite last_app_not_nil by apply split_not_nil.
  now rewrite split_no_sep.
Qed.

Lemma last_occurrence (sep : char) (s : str) :
  ~ In sep s \/ exists a b, s = a ++ sep :: b /\ ~ In sep b.
Proof.
  induction s as [|c s IH]; [left; intros []|].
  destruct IH as [Hno | [a [b [-> Hb]]]].
  - destruct (N.eq_dec c sep) as [->|Hc].
    + right. exists [], s. split; [reflexivity | assumption].
    + left. simpl. intros [E|E]; [now apply Hc | now apply Hno].
  - right. exists (c :: a), b. split; [reflexivity | assumption].
Qed.

Lemma last_field_spec (sep : char) (s suffix : str) :
  is_suffix_after_last sep s suffix <-> last_field sep s = suffix.
Proof.
  split.
  - intros [[Hno ->] | [pre [-> Hno]]].
    + now apply last_field_no_sep.
    + now apply last_field_app.
  - intros <-. destruct (last_occurrence sep s) as [Hno | [a [b [-> Hb]]]].
    + left. split; [assumption | now apply last_field_no_sep].
    + right. exists a. rewrite last_field_app by assumption.
      split; [reflexivity | assumption].
Qed.

(** ** Trimming, digit runs and the suffix after the last bracket *)

Section ParserFacts.
Context {U : Unicode}.

Lemma space_not_decimal (c : char) : isspace c = true -> isdecimal c = false.
Proof.
  intros Hs. destruct (isdecimal c) eqn:E; [|reflexivity].
  apply decimal_not_space in E. congruence.
Qed.

Lemma all_space_nondecimal (w : str) :
  all_space w -> forallb nondecimal w = true.
Proof.
  unfold all_space. rewrite !forallb_forall. intros H c Hc.
  unfold nondecimal. now rewrite space_not_decimal by auto.
Qed.

Lemma all_space_no_rbracket (w : str) : all_space w -> ~ In c_rbracket w.
Proof.
  intros H. apply forallb_negb_false with (p := isspace); [exact H|].
  apply rbracket_not_space.
Qed.

Lemma has_no_digit_forallb (s : str) :
  has_no_digit s <-> forallb nondecimal s = true.
Proof.
  unfold has_no_digit, nondecimal. rewrite forallb_forall. split.
  - intros H c Hc. now rewrite H.
  - intros H c Hc. specialize (H c Hc). now destruct (isdecimal c).
Qed.

(** *** [strip] *)

Lemma rstrip_decompose (s : str) :
  exists w, s = rstrip s ++ w /\ all_space w.
Proof. apply rev_drop_while_rev. Qed.

Lemma rstrip_end (s : str) : ~ ends_with_space (rstrip s).
Proof.
  unfold ends_with_space, rstrip. rewrite rev_involutive.
  pose proof (drop_while_head isspace (rev s)) as H.
  destruct (drop_while isspace (rev s)); simpl; [tauto | congruence].
Qed.

Lemma ends_with_space_suffix (a b : str) :
  b <> [] -> ends_with_space (a ++ b) -> ends_with_space b.
Proof.
  unfold ends_with_space. intros Hb. rewrite rev_app_distr.
  destruct (rev b) eqn:E; simpl; [|tauto].
  apply (f_equal (@rev char)) in E. rewrite rev_involutive in E.
  simpl in E. congruence.
Qed.

Lemma strip_is_trimmed (s : str) : is_trimmed s (strip s).
Proof.
  destruct (rstrip_decompose s) as [w2 [Hs Hw2]].
  exists (take_while isspace (rstrip s)), w2. repeat split.
  - unfold strip, lstrip. now rewrite app_assoc, take_drop_while.
  - apply take_while_all.
  - exact Hw2.
  - unfold strip, lstrip.
    pose proof (drop_while_head isspace (rstrip s)) as H.
    destruct (drop_while isspace (rstrip s)); simpl; [tauto | congruence].
  - unfold strip, lstrip. intros He.
    destruct (drop_while isspace (rstrip s)) eqn:E.
    + exact He.
    + apply (rstrip_end s).
      rewrite <- (take_drop_while isspace (rstrip s)), E.
      unfold ends_with_space in *. rewrite rev_app_distr.
      destruct (rev (c :: l)) eqn:E'; simpl; [|exact He].
      apply (f_equal (@rev char)) in E'. rewrite rev_involutive in E'.
      discriminate.
Qed.

(** What is trimmed is determined: [is_trimmed] describes [strip]. *)
Lemma rstrip_app_space (t w : str) :
  all_space w -> ~ ends_with_space t -> rstrip (t ++ w) = t.
Proof.
  intros Hw Ht. unfold rstrip. rewrite rev_app_distr.
  rewrite drop_while_app_all.
  - unfold ends_with_space in Ht.
    destruct (rev t) as [|c r] eqn:E; simpl in *.
    + apply (f_equal (@rev char)) in E. now rewrite rev_involutive in E.
    + destruct (isspace c) eqn:Ec; [tauto|].
      rewrite <- E. apply rev_involutive.
  - unfold all_space in Hw. rewrite forallb_forall in *.
    intros x Hx. apply Hw. now apply in_rev.
Qed.

Lemma lstrip_app_space (w t : str) :
  all_space w -> ~ starts_with_space t -> lstrip (w ++ t) = t.
Proof.
  intros Hw Ht. unfold lstrip. rewrite drop_while_app_all by exact Hw.
  destruct t as [|c t]; simpl in *; [reflexivity|].
  destruct (isspace c); [tauto | reflexivity].
Qed.

Lemma is_trimmed_strip (s t : str) : is_trimmed s t -> strip s = t.
Proof.
  intros [w1 [w2 [-> [H1 [H2 [Hs He]]]]]]. unfold strip.
  destruct t as [|c t].
  - assert (R : rstrip ([] ++ w1 ++ w2) = []).
    { apply rstrip_app_space; [|exact He].
      unfold all_space in *. rewrite forallb_app. now rewrite H1, H2. }
    simpl in *. now rewrite R.
  - rewrite app_assoc. rewrite rstrip_app_space.
    + now apply lstrip_app_space.
    + exact H2.
    + intros Hx. apply He.
      apply ends_with_space_suffix with (a := w1); [discriminate | exact Hx].
Qed.

(** *** The first run of digits *)

Lemma search_digits_some (s run : str) :
  search_digits s = Some run -> is_first_digit_run s run.
Proof.
  unfold search_digits. fold nondecimal.
  set (d := drop_while nondecimal s).
  destruct (take_while isdecimal d) as [|c r] eqn:E; [discriminate|].
  intros [= <-].
  exists (take_while nondecimal s), (drop_while isdecimal d).
  repeat split.
  - rewrite <- E, take_drop_while. unfold d. now rewrite take_drop_while.
  - apply has_no_digit_forallb, take_while_all.
  - discriminate.
  - unfold all_decimal. rewrite <- E. apply take_while_all.
  - pose proof (drop_while_head isdecimal d) as H.
    destruct (drop_while isdecimal d); simpl; [tauto | congruence].
Qed.

Lemma search_digits_run (pre run post : str) :
  has_no_digit pre -> run <> [] -> all_decimal run ->
  ~ starts_with_digit post ->
  search_digits (pre ++ run ++ post) = Some run.
Proof.
  intros Hpre Hne Hrun Hpost. unfold search_digits. fold nondecimal.
  destruct run as [|c r]; [congruence|].
  assert (Hc : isdecimal c = true).
  { unfold all_decimal in Hrun. simpl in Hrun.
    now apply andb_prop in Hrun. }
  simpl app. rewrite drop_while_app_stop.
  - change (c :: r ++ post) with ((c :: r) ++ post).
    rewrite take_while_app_stop; [reflexivity | | exact Hrun].
    destruct post as [|x post]; simpl in *; [exact I|].
    destruct (isdecimal x); [tauto | reflexivity].
  - now apply has_no_digit_forallb.
  - unfold nondecimal. now rewrite Hc.
Qed.

(** The first run of digits is determined: [is_first_digit_run]
    describes the match of [re.search(r'(\d+)', s)]. *)
Lemma first_digit_run_search (s run : str) :
  is_first_digit_run s run <-> search_digits s = Some run.
Proof.
  split.
  - intros [pre [post [-> [H1 [H2 [H3 H4]]]]]].
    now apply search_digits_run.
  - apply search_digits_some.
Qed.

Lemma search_digits_none (s : str) :
  search_digits s = None <-> has_no_digit s.
Proof.
  unfold search_digits. fold nondecimal. split.
  - intros H. apply has_no_digit_forallb.
    pose proof (drop_while_head nondecimal s) as Hd.
    rewrite <- (take_drop_while nondecimal s).
    destruct (drop_while nondecimal s) as [|c r] eqn:E.
    + rewrite app_nil_r. apply take_while_all.
    + simpl in H. unfold nondecimal in Hd.
      destruct (isdecimal c); [discriminate H | discriminate Hd].
  - intros H. apply has_no_digit_forallb in H.
    now rewrite drop_while_all.
Qed.

Lemma search_digits_app_l (w s : str) :
  has_no_digit w -> search_digits (w ++ s) = search_digits s.
Proof.
  intros H. unfold search_digits. fold nondecimal.
  rewrite drop_while_app_all; [reflexivity|].
  now apply has_no_digit_forallb.
Qed.

Lemma take_while_decimal_app (s w : str) :
  has_no_digit w ->
  take_while isdecimal (s ++ w) = take_while isdecimal s.
Proof.
  intros H. induction s as [|c s IH]; simpl.
  - destruct w as [|x w]; [reflexivity|]. simpl.
    rewrite (H x); [reflexivity | now left].
  - now rewrite IH.
Qed.

Lemma search_digits_app_r (s w : str) :
  has_no_digit w -> search_digits (s ++ w) = search_digits s.
Proof.
  intros H. unfold search_digits. fold nondecimal.
  induction s as [|c s IH]; simpl.
  - apply has_no_digit_forallb in H. now rewrite drop_while_all.
  - unfold nondecimal at 1 3. destruct (isdecimal c) eqn:E; simpl.
    + rewrite E. now rewrite take_while_decimal_app.
    + exact IH.
Qed.

Lemma all_space_no_digit (w : str) : all_space w -> has_no_digit w.
Proof. intros H. now apply has_no_digit_forallb, all_space_nondecimal. Qed.

(** Trimming a line first does not change the first run of digits
    after its last bracket. *)
Lemma search_digits_last_field_pad (w1 m w2 : str) :
  all_space w1 -> all_space w2 ->
  search_digits (last_field c_rbracket (w1 ++ m ++ w2)) =
  search_digits (last_field c_rbracket m).
Proof.
  intros H1 H2.
  destruct (last_occurrence c_rbracket m) as [Hno | [a [b [-> Hb]]]].
  - rewrite !last_field_no_sep; [|exact Hno|].
    + rewrite search_digits_app_l by now apply all_space_no_digit.
      now rewrite search_digits_app_r by now apply all_space_no_digit.
    + rewrite !in_app_iff. intros [H|[H|H]]; [|tauto|].
      * now apply (all_space_no_rbracket H1).
      * now apply (all_space_no_rbracket H2).
  - rewrite last_field_app by exact Hb.
    replace (w1 ++ (a ++ c_rbracket :: b) ++ w2)
      with ((w1 ++ a) ++ c_rbracket :: (b ++ w2))
      by (now rewrite <- !app_assoc).
    rewrite last_field_app.
    + now rewrite search_digits_app_r by now apply all_space_no_digit.
    + rewrite in_app_iff. intros [H|H]; [tauto|].
      now apply (all_space_no_rbracket H2).
Qed.

Lemma search_digits_strip (s : str) :
  search_digits (last_field c_rbracket (strip s)) =
  search_digits (last_field c_rbracket s).
Proof.
  destruct (strip_is_trimmed s) as [w1 [w2 [Hs [H1 [H2 _]]]]].
  rewrite Hs at 2. symmetry. now apply search_digits_last_field_pad.
Qed.
End ParserFacts.

(** ** Substrings and the attachment marker *)

Lemma starts_with_spec (pre s : str) :
  starts_with pre s = true <-> exists post, s = pre ++ post.
Proof.
  revert s. induction pre as [|x pre IH]; intros s; simpl.
  - split; [intros _; now exists s | reflexivity].
  - destruct s as [|y s].
    + split; [discriminate | intros [post H]; discriminate].
    + rewrite andb_true_iff, N.eqb_eq, IH. split.
      * intros [-> [post ->]]. now exists post.
      * intros [post [= -> ->]]. split; [reflexivity | now exists post].
Qed.

Lemma contains_spec (sub s : str) :
  contains sub s = true <-> is_substring sub s.
Proof.
  unfold is_substring. induction s as [|c s IH]; simpl.
  - rewrite orb_false_r, starts_with_spec. split.
    + intros [post H]. now exists [], post.
    + intros [pre [post H]]. symmetry in H.
      apply app_eq_nil in H. destruct H as [-> H].
      apply app_eq_nil in H. destruct H as [-> ->]. now exists [].
  - rewrite orb_true_iff, starts_with_spec, IH. split.
    + intros [[post H] | [pre [post H]]].
      * now exists [], post.
      * exists (c :: pre), post. now rewrite H.
    + intros [[|x pre] [post H]].
      * left. now exists post.
      * right. injection H as _ H. now exists pre, post.
Qed.

Lemma starts_with_skipn (pre s : str) :
  starts_with pre s = true -> s = pre ++ skipn (length pre) s.
Proof.
  intros H. apply starts_with_spec in H. destruct H as [post ->].
  rewrite skipn_app, skipn_all, Nat.sub_diag. reflexivity.
Qed.

Lemma until_gt_some (t g : str) :
  until_gt t = Some g ->
  exists post, t = g ++ c_gt :: post /\ ~ In c_gt g /\ ~ In c_newline g.
Proof.
  revert g. induction t as [|c t IH]; intros g; simpl; [discriminate|].
  destruct (N.eqb_spec c c_gt) as [->|Hgt].
  - intros [= <-]. exists t. simpl. tauto.
  - destruct (N.eqb_spec c c_newline) as [->|Hnl]; [discriminate|].
    destruct (until_gt t) as [g'|]; [|discriminate].
    intros [= <-]. destruct (IH g' eq_refl) as [post [-> [H1 H2]]].
    exists post. split; [reflexivity|].
    split; (intros [E|E]; [congruence | auto]).
Qed.

(** The group of [(.+?)>] is not empty, has no newline, and is the
    shortest: no [>] after its first character. *)
Lemma dot_plus_lazy_gt_some (t g : str) :
  dot_plus_lazy_gt t = Some g ->
  exists post,
    t = g ++ c_gt :: post /\ g <> [] /\ ~ In c_newline g /\ ~ In c_gt (tl g).
Proof.
  destruct t as [|c t]; simpl; [discriminate|].
  destruct (N.eqb_spec c c_newline) as [->|Hnl]; [discriminate|].
  destruct (until_gt t) as [g'|] eqn:E; [|discriminate].
  intros [= <-]. destruct (until_gt_some _ E) as [post [-> [H1 H2]]].
  exists post. split; [reflexivity|]. split; [discriminate|].
  split; [|exact H1]. intros [H|H]; [congruence | auto].
Qed.

Lemma match_attached_some (s g : str) :
  match_attached s = Some g ->
  exists post,
    s = attached_prefix ++ g ++ c_gt :: post /\
    g <> [] /\ ~ In c_newline g /\ ~ In c_gt (tl g).
Proof.
  unfold match_attached.
  destruct (starts_with attached_prefix s) eqn:E; [|discriminate].
  intros H. apply dot_plus_lazy_gt_some in H.
  destruct H as [post [H1 [H2 [H3 H4]]]].
  exists post. rewrite <- H1. split; [now apply starts_with_skipn|].
  auto.
Qed.

Lemma search_attached_some (s g : str) :
  search_attached s = Some g ->
  exists pre post,
    s = pre ++ attached_prefix ++ g ++ c_gt :: post /\
    g <> [] /\ ~ In c_newline g /\ ~ In c_gt (tl g).
Proof.
  induction s as [|c s IH].
  - cbn. discriminate.
  - cbn [search_attached].
    destruct (match_attached (c :: s)) eqn:E.
    + intros [= <-]. apply match_attached_some in E.
      destruct E as [post E]. now exists [], post.
    + intros H. destruct (IH H) as [pre [post [-> Hg]]].
      now exists (c :: pre), post.
Qed.

(** ** [int] on a run of digits *)

Section IntFacts.
Context {U : Unicode}.

Lemma fold_digits (run : str) (acc : Z) :
  fold_left (fun a c => (10 * a + todecimal c)%Z) run acc =
  (acc * 10 ^ Z.of_nat (length run) + decimal_value run)%Z.
Proof.
  revert acc. induction run as [|c run IH]; intros acc.
  - simpl. lia.
  - cbn [fold_left decimal_value length]. rewrite IH.
    rewrite Nat2Z.inj_succ, Z.pow_succ_r by lia. ring.
Qed.

Lemma int_of_digits_value (run : str) :
  int_of_digits run = decimal_value run.
Proof. unfold int_of_digits. rewrite fold_digits. lia. Qed.

Lemma decimal_value_nonneg (run : str) :
  all_decimal run -> (0 <= decimal_value run)%Z.
Proof.
  unfold all_decimal. induction run as [|c run IH]; simpl; intros H.
  - lia.
  - apply andb_prop in H. destruct H as [Hc Hr].
    pose proof (todecimal_range c Hc).
    specialize (IH Hr).
    assert (0 <= 10 ^ Z.of_nat (length run))%Z by (apply Z.pow_nonneg; lia).
    nia.
Qed.
End IntFacts.

(** ** The loop of [parse_chat] *)

Section ParseChatFacts.
Context {U : Unicode}.

Lemma getitem_nth_error (A : Type) (l : list A) (i : nat) (x : A) :
  getitem l i = Ok x <-> nth_error l i = Some x.
Proof.
  unfold getitem. destruct (nth_error l i); split; congruence.
Qed.

(** What a record says about the two lines it was made from. *)
Lemma record_at_some (lines : list str) (i : nat) (w : wine) :
  record_at lines i = Ok (Some w) ->
  exists raw raw_next digits,
    nth_error lines i = Some raw /\
    nth_error lines (S i) = Some raw_next /\
    contains (lit "<attached:") (strip raw) = true /\
    contains (lit ".jpg") (lower (strip raw)) = true /\
    search_attached (strip raw) = Some (photo w) /\
    search_digits (last_field c_rbracket (strip raw_next)) = Some digits /\
    rating w = clamp (int_of_digits digits) /\
    comment w =
      strip (sub_leading_digits (last_field c_rbracket (strip raw_next))).
Proof.
  unfold record_at, getitem. rewrite Nat.add_1_r.
  destruct (nth_error lines i) as [raw|]; [|discriminate].
  cbn [bind].
  destruct (contains (lit "<attached:") (strip raw)) eqn:E1;
    [|discriminate].
  destruct (contains (lit ".jpg") (lower (strip raw))) eqn:E2;
    [|discriminate].
  cbn [andb].
  destruct (search_attached (strip raw)) as [name|] eqn:E3; [|discriminate].
  destruct (S i <? length lines); [|discriminate].
  destruct (nth_error lines (S i)) as [raw_next|]; [|discriminate].
  cbn [bind]. rewrite getitem_last_split. cbn [bind].
  destruct (search_digits (last_field c_rbracket (strip raw_next)))
    as [digits|] eqn:E4; [|discriminate].
  intros [= <-]. exists raw, raw_next, digits. cbn.
  repeat split; assumption || reflexivity.
Qed.

(** The body of the loop raises nothing at an index of the list. *)
Lemma record_at_ok (lines : list str) (i : nat) :
  i < length lines -> exists o, record_at lines i = Ok o.
Proof.
  intros Hi. unfold record_at, getitem. rewrite Nat.add_1_r.
  destruct (nth_error lines i) as [raw|] eqn:E.
  2:{ apply nth_error_None in E. lia. }
  cbn [bind].
  destruct (_ && _); [|eauto].
  destruct (search_attached (strip raw)); [|eauto].
  destruct (Nat.ltb_spec (S i) (length lines)) as [Hn|Hn]; [|eauto].
  destruct (nth_error lines (S i)) as [raw_next|] eqn:E'.
  2:{ apply nth_error_None in E'. lia. }
  cbn [bind]. rewrite getitem_last_split. cbn [bind].
  destruct (search_digits _); eauto.
Qed.

(** No record at the last index. *)
Lemma record_at_last (lines : list str) (i : nat) :
  S i = length lines -> record_at lines i = Ok None.
Proof.
  intros Hi. unfold record_at, getitem. rewrite Nat.add_1_r.
  destruct (nth_error lines i) as [raw|] eqn:E.
  2:{ apply nth_error_None in E. lia. }
  cbn [bind].
  destruct (_ && _); [|reflexivity].
  destruct (search_attached (strip raw)); [|reflexivity].
  rewrite Hi, Nat.ltb_irrefl. reflexivity.
Qed.

(** No record when the next line has no digit after its last bracket. *)
Lemma record_at_no_digit (lines : list str) (i : nat) (raw_next : str) :
  nth_error lines (S i) = Some raw_next ->
  search_digits (last_field c_rbracket (strip raw_next)) = None ->
  record_at lines i = Ok None.
Proof.
  intros Hn Hd.
  assert (Hi : i < length lines).
  { assert (S i < length lines) by (apply nth_error_Some; congruence). lia. }
  unfold record_at, getitem. rewrite Nat.add_1_r.
  destruct (nth_error lines i) as [raw|] eqn:E.
  2:{ apply nth_error_None in E. lia. }
  cbn [bind].
  destruct (_ && _); [|reflexivity].
  destruct (search_attached (strip raw)); [|reflexivity].
  destruct (S i <? length lines); [|reflexivity].
  rewrite Hn. cbn [bind]. rewrite getitem_last_split. cbn [bind].
  now rewrite Hd.
Qed.

Lemma wines_at_ok (lines : list str) (i : nat) (o : option wine) :
  record_at lines i = Ok o ->
  wines_at lines i = match o with Some w => [w] | None => [] end.
Proof. unfold wines_at. now intros ->. Qed.

Lemma In_wines_at (lines : list str) (i : nat) (w : wine) :
  In w (wines_at lines i) <-> record_at lines i = Ok (Some w).
Proof.
  unfold wines_at. destruct (record_at lines i) as [[w'|]|e]; simpl.
  - split; [intros [->|[]]; reflexivity | intros [= ->]; now left].
  - split; [intros [] | discriminate].
  - split; [intros [] | discriminate].
Qed.

Lemma while_loop_spec (lines : list str) (fuel i : nat) (wines : list wine) :
  length lines - i <= fuel ->
  while_loop fuel lines i wines =
  Ok (wines ++ flat_map (wines_at lines) (seq i (length lines - i))).
Proof.
  revert i wines. induction fuel as [|fuel IH]; intros i wines Hf.
  - simpl. destruct (Nat.ltb_spec i (length lines)) as [Hi|Hi]; [lia|].
    replace (length lines - i) with 0 by lia. simpl.
    now rewrite app_nil_r.
  - cbn [while_loop].
    destruct (Nat.ltb_spec i (length lines)) as [Hi|Hi].
    + destruct (record_at_ok lines Hi) as [o Ho]. rewrite Ho. cbn [bind].
      rewrite IH by lia.
      replace (length lines - i) with (S (length lines - (i + 1))) by lia.
      cbn [seq flat_map]. rewrite (wines_at_ok _ _ Ho).
      rewrite Nat.add_1_r. destruct o; now rewrite <- ?app_assoc.
    + replace (length lines - i) with 0 by lia. simpl.
      now rewrite app_nil_r.
Qed.

(** [parse_chat] returns, and returns the records of the indices in
    increasing order. *)
Lemma parse_chat_spec (lines : list str) :
  parse_chat lines =
  Ok (flat_map (wines_at lines) (seq 0 (length lines))).
Proof.
  unfold parse_chat. rewrite while_loop_spec by lia.
  now rewrite Nat.sub_0_r.
Qed.

Lemma parse_chat_In (lines : list str) (ws : list wine) (w : wine) :
  parse_chat lines = Ok ws -> In w ws ->
  exists i, record_at lines i = Ok (Some w).
Proof.
  rewrite parse_chat_spec. intros [= <-] Hin.
  apply in_flat_map in Hin. destruct Hin as [i [_ Hi]].
  exists i. now apply In_wines_at.
Qed.
End ParseChatFacts.

(** ** The records of the parser *)

Section ParserClaims.
Context {U : Unicode}.

Lemma clamp_le (n : Z) : (clamp n <= 10)%Z.
Proof. unfold clamp. destruct (Z.gtb_spec n 10); lia. Qed.

Lemma record_rating (lines : list str) (i : nat) (w : wine) :
  record_at lines i = Ok (Some w) ->
  exists next suffix run,
    nth_error lines (S i) = Some next /\
    is_suffix_after_last c_rbracket next suffix /\
    is_first_digit_run suffix run /\
    rating w = clamp (decimal_value run).
Proof.
  intros H. apply record_at_some in H.
  destruct H as [raw [next [run [_ [Hn [_ [_ [_ [Hd [Hr _]]]]]]]]]].
  exists next, (last_field c_rbracket next), run.
  rewrite search_digits_strip in Hd.
  split; [exact Hn|]. split; [now apply last_field_spec|].
  split; [now apply search_digits_some|].
  now rewrite <- int_of_digits_value.
Qed.

(** C1: every record of [parse_chat] has a rating of at most 10; the
    rating is the value of the first run of decimal digits after the
    last bracket of the line that follows the attachment when that
    value is at most 10, and is 10 when the value is larger. *)
Theorem rating_is_clamped_first_run
    (lines : list str) (ws : list wine) (w : wine) :
  parse_chat lines = Ok ws -> In w ws ->
  (rating w <= 10)%Z /\
  exists i next suffix run,
    record_at lines i = Ok (Some w) /\
    nth_error lines (S i) = Some next /\
    is_suffix_after_last c_rbracket next suffix /\
    is_first_digit_run suffix run /\
    ((decimal_value run <= 10)%Z -> rating w = decimal_value run) /\
    ((decimal_value run > 10)%Z -> rating w = 10%Z).
Proof.
  intros Hp Hin. destruct (@parse_chat_In U lines ws w Hp Hin) as [i Hi].
  destruct (@record_rating lines i w Hi) as [next [suffix [run [Hn [Hs [Hr Hw]]]]]].
  split; [rewrite Hw; apply clamp_le|].
  exists i, next, suffix, run. repeat split; try assumption.
  - intros Hle. rewrite Hw. unfold clamp.
    destruct (Z.gtb_spec (decimal_value run) 10); [lia | reflexivity].
  - intros Hgt. rewrite Hw. unfold clamp.
    destruct (Z.gtb_spec (decimal_value run) 10); [reflexivity | lia].
Qed.

(** C9: every record of [parse_chat] has a rating between 0 and 10;
    no rating is negative, because a run of decimal digits has no
    negative value. *)
Theorem rating_in_range (lines : list str) (ws : list wine) (w : wine) :
  parse_chat lines = Ok ws -> In w ws -> (0 <= rating w <= 10)%Z.
Proof.
  intros Hp Hin. destruct (@parse_chat_In U lines ws w Hp Hin) as [i Hi].
  destruct (@record_rating lines i w Hi) as [next [suffix [run [_ [_ [Hr Hw]]]]]].
  destruct Hr as [pre [post [_ [_ [_ [Hdec _]]]]]].
  pose proof (@decimal_value_nonneg U run Hdec) as H0.
  rewrite Hw. split; [|apply clamp_le].
  unfold clamp. destruct (Z.gtb_spec (decimal_value run) 10); lia.
Qed.

Lemma seq_split_at (n i : nat) :
  i < n -> seq 0 n = seq 0 i ++ i :: seq (S i) (n - S i).
Proof.
  intros Hi. replace n with (i + S (n - S i)) at 1 by lia.
  now rewrite seq_app.
Qed.

(** C6: when the line after index [i] has no decimal digit after its
    last bracket, index [i] gives no record; [parse_chat] returns all
    the same, and its result is made of the records of the indices
    before [i] and of those after [i]. *)
Theorem no_digit_no_record
    (lines : list str) (i : nat) (next suffix : str) :
  nth_error lines (S i) = Some next ->
  is_suffix_after_last c_rbracket next suffix ->
  has_no_digit suffix ->
  record_at lines i = Ok None /\
  parse_chat lines =
    Ok (flat_map (wines_at lines) (seq 0 i) ++
        flat_map (wines_at lines) (seq (S i) (length lines - S i))).
Proof.
  intros Hn Hs Hd. apply last_field_spec in Hs. subst suffix.
  apply search_digits_none in Hd. rewrite <- search_digits_strip in Hd.
  pose proof (@record_at_no_digit U lines i next Hn Hd) as Hr.
  split; [exact Hr|].
  assert (Hi : i < length lines).
  { assert (S i < length lines) by (apply nth_error_Some; congruence). lia. }
  rewrite parse_chat_spec, (seq_split_at Hi), flat_map_app.
  cbn [flat_map]. unfold wines_at at 2. now rewrite Hr.
Qed.

(** C8: the last line of a transcript gives no record, whatever it is,
    an attachment line included; the result of [parse_chat] is made of
    the records of the lines before it. *)
Theorem last_line_no_record (lines : list str) (l : str) :
  record_at (lines ++ [l]) (length lines) = Ok None /\
  parse_chat (lines ++ [l]) =
    Ok (flat_map (wines_at (lines ++ [l])) (seq 0 (length lines))).
Proof.
  assert (Hr : record_at (lines ++ [l]) (length lines) = Ok None).
  { apply record_at_last. rewrite length_app. simpl. lia. }
  split; [exact Hr|].
  rewrite parse_chat_spec, length_app. simpl length.
  rewrite seq_app, flat_map_app, Nat.add_0_l. cbn [seq flat_map].
  unfold wines_at at 2. rewrite Hr. simpl. now rewrite !app_nil_r.
Qed.
End ParserClaims.

Section MarkerAndComment.
Context {U : Unicode}.

Lemma record_at_no_jpg (lines : list str) (i : nat) (raw : str) :
  nth_error lines i = Some raw ->
  contains (lit ".jpg") (lower (strip raw)) = false ->
  record_at lines i = Ok None.
Proof.
  intros Hn Hc. unfold record_at, getitem. rewrite Hn. cbn [bind].
  rewrite Hc, andb_false_r. reflexivity.
Qed.

(** C2 (amended): a record is produced at a line only if the line
    contains a marker [<attached: FILENAME>], with [FILENAME] the
    photo of the record and not empty, and the trimmed line in lower
    case contains [.jpg], inside the marker or anywhere else; a line
    whose trimmed text in lower case lacks [.jpg] gives no record. *)
Theorem record_needs_marker_and_jpg
    (lines : list str) (i : nat) (raw : str) :
  nth_error lines i = Some raw ->
  (forall w,
     record_at lines i = Ok (Some w) ->
     (exists pre post,
        raw = pre ++ lit "<attached: " ++ photo w ++ lit ">" ++ post) /\
     photo w <> [] /\
     is_substring (lit ".jpg") (lower (strip raw))) /\
  (~ is_substring (lit ".jpg") (lower (strip raw)) ->
   record_at lines i = Ok None).
Proof.
  intros Hn. split.
  - intros w Hw. apply record_at_some in Hw.
    destruct Hw as [raw' [next [run [Hn' [_ [_ [Hj [Hs _]]]]]]]].
    rewrite Hn in Hn'. injection Hn' as <-.
    apply search_attached_some in Hs.
    destruct Hs as [pre [post [Hs [Hne _]]]].
    destruct (strip_is_trimmed raw) as [w1 [w2 [Hr _]]].
    split; [|split; [exact Hne | now apply contains_spec]].
    exists (w1 ++ pre), (post ++ w2).
    rewrite Hr at 1. rewrite Hs. unfold attached_prefix.
    change (lit ">") with [c_gt]. now rewrite <- !app_assoc.
  - intros Hno. apply record_at_no_jpg with (raw := raw); [exact Hn|].
    destruct (contains (lit ".jpg") (lower (strip raw))) eqn:E;
      [|reflexivity].
    apply contains_spec in E. contradiction.
Qed.

Lemma is_trimmed_lstrip (x : str) : is_trimmed x (strip (lstrip x)).
Proof.
  destruct (strip_is_trimmed (lstrip x)) as [w1 [w2 [Hx [H1 [H2 [Hs He]]]]]].
  exists (take_while isspace x ++ w1), w2. repeat split; try assumption.
  - rewrite <- app_assoc, <- Hx. unfold lstrip.
    now rewrite take_drop_while.
  - unfold all_space in *. rewrite forallb_app, H1.
    now rewrite take_while_all.
Qed.

Lemma sub_leading_digits_comment (suffix : str) :
  is_comment_of suffix (strip (sub_leading_digits suffix)).
Proof.
  unfold is_comment_of, sub_leading_digits. repeat split.
  - intros Hd. destruct suffix as [|c s]; [destruct Hd|].
    simpl in Hd. cbn [take_while]. rewrite Hd.
    exists (take_while isdecimal (c :: s)), (drop_while isdecimal (c :: s)).
    repeat split.
    + now rewrite take_drop_while.
    + cbn [take_while]. rewrite Hd. discriminate.
    + apply take_while_all.
    + pose proof (drop_while_head isdecimal (c :: s)) as H.
      destruct (drop_while isdecimal (c :: s)); simpl; [tauto | congruence].
    + apply is_trimmed_lstrip.
  - intros Hd. destruct suffix as [|c s]; [apply strip_is_trimmed|].
    simpl in Hd. cbn [take_while].
    destruct (isdecimal c); [tauto | apply strip_is_trimmed].
  - intros Hd. destruct suffix as [|c s]; [reflexivity|].
    unfold all_decimal in Hd. rewrite (drop_while_all _ _ Hd).
    simpl in Hd. apply andb_prop in Hd. destruct Hd as [Hc _].
    cbn [take_while]. rewrite Hc. reflexivity.
Qed.

(** C3 (amended): the comment of a record comes from the line after
    the attachment, trimmed of the whitespace at its two ends first:
    of what follows the last bracket of the trimmed line, one leading
    run of digits is removed if it starts with a digit, and the rest
    is trimmed; if it does not start with a digit nothing is removed
    before the trimming; if it is only digits the comment is empty. *)
Theorem comment_of_trimmed_line (lines : list str) (i : nat) (w : wine) :
  record_at lines i = Ok (Some w) ->
  exists next trimmed suffix,
    nth_error lines (S i) = Some next /\
    is_trimmed next trimmed /\
    is_suffix_after_last c_rbracket trimmed suffix /\
    is_comment_of suffix (comment w).
Proof.
  intros Hw. apply record_at_some in Hw.
  destruct Hw as [raw [next [run [_ [Hn [_ [_ [_ [_ [_ Hc]]]]]]]]]].
  exists next, (strip next), (last_field c_rbracket (strip next)).
  split; [exact Hn|]. split; [apply strip_is_trimmed|].
  split; [now apply last_field_spec|].
  rewrite Hc. apply sub_leading_digits_comment.
Qed.
End MarkerAndComment.

(** ** [sorted]: a stable sort *)

Section SortedFacts.
Variable A : Type.
Variable key : A -> Z.
Variable reverse : bool.

Abbreviation sb := (stays_before key reverse).
Abbreviation ord := (in_order key reverse).
Abbreviation ins := (insert_sorted key reverse).
Abbreviation srt := (py_sorted key reverse).

Lemma stays_before_asym (x y : A) : sb y x = true -> sb x y = false.
Proof.
  unfold stays_before. destruct reverse;
    destruct (Z.ltb_spec (key x) (key y)), (Z.ltb_spec (key y) (key x));
    intros; congruence || lia.
Qed.

Lemma in_order_trans (x y z : A) : ord x y -> ord y z -> ord x z.
Proof.
  unfold in_order, stays_before. destruct reverse;
    destruct (Z.ltb_spec (key x) (key y)), (Z.ltb_spec (key y) (key z)),
      (Z.ltb_spec (key x) (key z)), (Z.ltb_spec (key y) (key x)),
      (Z.ltb_spec (key z) (key y)), (Z.ltb_spec (key z) (key x));
    intros; congruence || lia.
Qed.

Lemma in_order_antisym (x y : A) : ord x y -> ord y x -> key x = key y.
Proof.
  unfold in_order, stays_before. destruct reverse;
    destruct (Z.ltb_spec (key x) (key y)), (Z.ltb_spec (key y) (key x));
    intros; congruence || lia.
Qed.

Lemma same_key_in_order (x y : A) : key x = key y -> ord x y.
Proof.
  unfold in_order, stays_before. intros ->.
  destruct reverse; apply Z.ltb_irrefl.
Qed.

Lemma insert_sorted_perm (x : A) (l : list A) :
  Permutation (x :: l) (ins x l).
Proof.
  induction l as [|y l IH]; simpl; [reflexivity|].
  destruct (sb y x); [|reflexivity].
  rewrite perm_swap. now apply perm_skip.
Qed.

Lemma py_sorted_perm (l : list A) : Permutation l (srt l).
Proof.
  induction l as [|x l IH]; simpl; [reflexivity|].
  rewrite <- insert_sorted_perm. now apply perm_skip.
Qed.

Lemma insert_sorted_head (x : A) (l : list A) :
  Forall (ord x) l -> ins x l = x :: l.
Proof.
  intros H. destruct l as [|y l]; [reflexivity|].
  apply Forall_inv in H. unfold in_order in H. simpl. now rewrite H.
Qed.

Lemma insert_sorted_sorted (x : A) (l : list A) :
  StronglySorted ord l -> StronglySorted ord (ins x l).
Proof.
  induction l as [|y l IH]; intros Hs; simpl.
  - constructor; constructor.
  - apply StronglySorted_inv in Hs. destruct Hs as [Hl Hy].
    destruct (sb y x) eqn:E.
    + constructor; [now apply IH|].
      apply (Permutation_Forall (insert_sorted_perm x l)).
      constructor; [|exact Hy].
      now apply stays_before_asym.
    + constructor; [now constructor|].
      constructor; [exact E|].
      apply Forall_impl with (P := ord y); [|exact Hy].
      intros z Hz. now apply in_order_trans with (y := y).
Qed.

Lemma py_sorted_sorted (l : list A) : StronglySorted ord (srt l).
Proof.
  induction l as [|x l IH]; simpl; [constructor|].
  now apply insert_sorted_sorted.
Qed.

Lemma filter_insert_sorted (P : A -> bool) (x : A) (l : list A) :
  StronglySorted ord l ->
  filter P (ins x l) = if P x then ins x (filter P l) else filter P l.
Proof.
  induction l as [|y l IH]; intros Hs.
  - simpl. now destruct (P x).
  - apply StronglySorted_inv in Hs. destruct Hs as [Hl Hy].
    cbn [insert_sorted]. destruct (sb y x) eqn:E.
    + cbn [filter]. rewrite (IH Hl).
      destruct (P x), (P y); cbn [insert_sorted]; now rewrite ?E.
    + destruct (P x) eqn:Ex; cbn [filter]; rewrite Ex; [|reflexivity].
      symmetry. apply (insert_sorted_head (x := x) (l := filter P (y :: l))).
      apply incl_Forall with (l1 := y :: l).
      * intros z Hz. now apply filter_In in Hz.
      * constructor; [exact E|].
        apply Forall_impl with (P := ord y); [|exact Hy].
        intros z Hz. now apply in_order_trans with (y := y).
Qed.

(** Sorting and selecting commute. *)
Lemma filter_py_sorted (P : A -> bool) (l : list A) :
  filter P (srt l) = srt (filter P l).
Proof.
  induction l as [|x l IH]; [reflexivity|].
  cbn [py_sorted fold_right filter].
  rewrite filter_insert_sorted by apply py_sorted_sorted.
  fold (srt l). rewrite IH. now destruct (P x).
Qed.

Lemma py_sorted_same_key (k : Z) (l : list A) :
  Forall (fun a => key a = k) l -> srt l = l.
Proof.
  induction l as [|x l IH]; intros H; [reflexivity|].
  apply Forall_cons_iff in H. destruct H as [Hx Hl].
  cbn [py_sorted fold_right]. fold (srt l). rewrite (IH Hl).
  apply insert_sorted_head.
  apply Forall_impl with (P := fun a => key a = k); [|exact Hl].
  intros a Ha. apply same_key_in_order. congruence.
Qed.

(** Stability: elements with equal keys keep their order. *)
Lemma py_sorted_stable (k : Z) (l : list A) :
  with_key key k (srt l) = with_key key k l.
Proof.
  unfold with_key. rewrite filter_py_sorted.
  apply py_sorted_same_key with (k := k).
  apply Forall_forall. intros a Ha. apply filter_In in Ha.
  now apply Z.eqb_eq.
Qed.

Lemma with_key_cons_same (x : A) (l : list A) :
  with_key key (key x) (x :: l) = x :: with_key key (key x) l.
Proof. unfold with_key. simpl. now rewrite Z.eqb_refl. Qed.

Lemma with_key_head (k : Z) (l : list A) (x : A) (t : list A) :
  with_key key k l = x :: t -> In x l /\ key x = k.
Proof.
  intros H. assert (Hin : In x (with_key key k l)) by (rewrite H; now left).
  apply filter_In in Hin. destruct Hin as [Hin Hk].
  split; [exact Hin | now apply Z.eqb_eq].
Qed.

(** Two sorted lists with the same elements of every key, in the same
    order, are equal. *)
Lemma sorted_stable_unique (l1 l2 : list A) :
  StronglySorted ord l1 -> StronglySorted ord l2 ->
  (forall k, with_key key k l1 = with_key key k l2) ->
  l1 = l2.
Proof.
  revert l2. induction l1 as [|x l1 IH]; intros l2 H1 H2 Hk.
  - destruct l2 as [|y l2]; [reflexivity|].
    specialize (Hk (key y)). rewrite with_key_cons_same in Hk. discriminate.
  - destruct l2 as [|y l2].
    { specialize (Hk (key x)). rewrite with_key_cons_same in Hk.
      discriminate. }
    apply StronglySorted_inv in H1. destruct H1 as [H1 Hx].
    apply StronglySorted_inv in H2. destruct H2 as [H2 Hy].
    rewrite Forall_forall in Hx, Hy.
    assert (Exy : key x = key y).
    { pose proof (Hk (key x)) as Ha. rewrite with_key_cons_same in Ha.
      symmetry in Ha. apply with_key_head in Ha. destruct Ha as [Ha Ha'].
      pose proof (Hk (key y)) as Hb. rewrite (with_key_cons_same y) in Hb.
      apply with_key_head in Hb. destruct Hb as [Hb Hb'].
      destruct Ha as [->|Ha]; [reflexivity|].
      destruct Hb as [->|Hb]; [reflexivity|].
      apply in_order_antisym.
      - apply Hx in Hb. apply in_order_trans with (y := y); [exact Hb|].
        now apply same_key_in_order.
      - apply Hy in Ha. apply in_order_trans with (y := x); [exact Ha|].
        now apply same_key_in_order. }
    assert (x = y).
    { specialize (Hk (key y)). unfold with_key in Hk. cbn [filter] in Hk.
      rewrite Exy, Z.eqb_refl in Hk. congruence. }
    subst y. f_equal. apply IH; [exact H1 | exact H2 |].
    intros k. specialize (Hk k). unfold with_key in *. cbn [filter] in Hk.
    destruct (Z.eqb (key x) k); congruence.
Qed.

(** [py_sorted] is the only stable sort. *)
Lemma py_sorted_unique (l l' : list A) :
  StronglySorted ord l' ->
  (forall k, with_key key k l' = with_key key k l) ->
  l' = srt l.
Proof.
  intros Hs Hk. apply sorted_stable_unique.
  - exact Hs.
  - apply py_sorted_sorted.
  - intros k. now rewrite py_sorted_stable.
Qed.
End SortedFacts.

(** ** Base64 *)

Lemma b64_char_table :
  forallb b64_char_checked (List.map N.of_nat (seq 0 64)) = true.
Proof. vm_compute. reflexivity. Qed.

Lemma b64_char_ok (n : N) :
  (n < 64)%N ->
  b64_index (b64_char n) = Some n /\
  N.eqb (b64_char n) c_equals = false /\
  b64_char n <> c_quote.
Proof.
  intros Hn. pose proof b64_char_table as H. rewrite forallb_forall in H.
  assert (Hin : In n (List.map N.of_nat (seq 0 64))).
  { rewrite <- (N2Nat.id n). apply in_map, in_seq. lia. }
  specialize (H n Hin). unfold b64_char_checked in H.
  apply andb_prop in H. destruct H as [H H3].
  apply andb_prop in H. destruct H as [H1 H2].
  destruct (b64_index (b64_char n)) as [m|]; [|discriminate].
  apply N.eqb_eq in H1. subst m.
  split; [reflexivity|]. split; [now apply negb_true_iff|].
  apply negb_true_iff in H3. now apply N.eqb_neq.
Qed.

(** A character of the alphabet, or the padding, is never a quote. *)
Lemma b64_char_not_quote (n : N) : b64_char n <> c_quote.
Proof.
  unfold b64_char.
  destruct (nth_in_or_default (N.to_nat n) b64_alphabet c_equals) as [H | ->].
  - revert H. generalize (nth (N.to_nat n) b64_alphabet c_equals).
    intros c Hc Heq. subst c. revert Hc. vm_compute.
    intuition discriminate.
  - discriminate.
Qed.

Lemma b64encode_no_quote (bs : list byte) : ~ In c_quote (b64encode bs).
Proof.
  assert (Hq : c_equals <> c_quote) by discriminate.
  revert bs. fix IH 1. intros [|a [|b [|c rest]]].
  - intros [].
  - simpl. intros [H|[H|[H|[H|[]]]]];
      solve [ eapply b64_char_not_quote; eassumption | now apply Hq ].
  - simpl. intros [H|[H|[H|[H|[]]]]];
      solve [ eapply b64_char_not_quote; eassumption | now apply Hq ].
  - cbn [b64encode]. rewrite in_app_iff. intros [H|H].
    + simpl in H. destruct H as [H|[H|[H|[H|[]]]]];
        eapply b64_char_not_quote; eassumption.
    + exact (IH rest H).
Qed.

Section Base64Groups.
Local Open Scope N_scope.

Lemma sextet_1 (x : N) :
  x < 256 ->
  x / 4 < 64.
Proof.
  intros Hx. apply N.Div0.div_lt_upper_bound. lia.
Qed.

Lemma sextet_2 (x y : N) :
  x < 256 -> y < 256 ->
  x mod 4 * 16 + y / 16 < 64.
Proof.
  intros Hx Hy.
  assert (x mod 4 < 4) by (apply N.mod_lt; lia).
  assert (y / 16 < 16) by (apply N.Div0.div_lt_upper_bound; lia). lia.
Qed.

Lemma sextet_2_pad (x : N) :
  x < 256 ->
  x mod 4 * 16 < 64.
Proof.
  intros Hx. assert (x mod 4 < 4) by (apply N.mod_lt; lia). lia.
Qed.

Lemma sextet_3 (y z : N) :
  y < 256 -> z < 256 ->
  y mod 16 * 4 + z / 64 < 64.
Proof.
  intros Hy Hz.
  assert (y mod 16 < 16) by (apply N.mod_lt; lia).
  assert (z / 64 < 4) by (apply N.Div0.div_lt_upper_bound; lia). lia.
Qed.

Lemma sextet_3_pad (y : N) :
  y < 256 ->
  y mod 16 * 4 < 64.
Proof.
  intros Hy. assert (y mod 16 < 16) by (apply N.mod_lt; lia). lia.
Qed.

Lemma sextet_4 (z : N) :
  z < 256 ->
  z mod 64 < 64.
Proof.
  intros Hz. apply N.mod_lt. lia.
Qed.

Lemma octet_1 (x y : N) :
  x < 256 -> y < 256 ->
  x / 4 * 4 + (x mod 4 * 16 + y / 16) / 16 = x.
Proof.
  intros Hx Hy.
  assert (y / 16 < 16) by (apply N.Div0.div_lt_upper_bound; lia).
  rewrite N.div_add_l by lia. rewrite (N.div_small (y / 16)) by assumption.
  rewrite (N.div_mod x 4) at 3 by lia. lia.
Qed.

Lemma octet_1_pad (x : N) :
  x < 256 ->
  x / 4 * 4 + (x mod 4 * 16) / 16 = x.
Proof.
  intros Hx.
  rewrite N.div_mul by lia. rewrite (N.div_mod x 4) at 3 by lia. lia.
Qed.

Lemma octet_2 (x y z : N) :
  x < 256 -> y < 256 -> z < 256 ->
  (x mod 4 * 16 + y / 16) mod 16 * 16 + (y mod 16 * 4 + z / 64) / 4 = y.
Proof.
  intros Hx Hy Hz.
  assert (y / 16 < 16) by (apply N.Div0.div_lt_upper_bound; lia).
  assert (z / 64 < 4) by (apply N.Div0.div_lt_upper_bound; lia).
  rewrite (N.add_comm (x mod 4 * 16) (y / 16)), N.Div0.mod_add.
  rewrite (N.mod_small (y / 16)) by assumption.
  rewrite N.div_add_l by lia. rewrite (N.div_small (z / 64)) by assumption.
  rewrite (N.div_mod y 16) at 3 by lia. lia.
Qed.

Lemma octet_2_pad (x y : N) :
  x < 256 -> y < 256 ->
  (x mod 4 * 16 + y / 16) mod 16 * 16 + (y mod 16 * 4) / 4 = y.
Proof.
  intros Hx Hy.
  assert (y / 16 < 16) by (apply N.Div0.div_lt_upper_bound; lia).
  rewrite (N.add_comm (x mod 4 * 16) (y / 16)), N.Div0.mod_add.
  rewrite (N.mod_small (y / 16)) by assumption.
  rewrite N.div_mul by lia.
  rewrite (N.div_mod y 16) at 3 by lia. lia.
Qed.

Lemma octet_3 (y z : N) :
  y < 256 -> z < 256 ->
  (y mod 16 * 4 + z / 64) mod 4 * 64 + z mod 64 = z.
Proof.
  intros Hy Hz.
  assert (z / 64 < 4) by (apply N.Div0.div_lt_upper_bound; lia).
  rewrite (N.add_comm (y mod 16 * 4) (z / 64)), N.Div0.mod_add.
  rewrite (N.mod_small (z / 64)) by assumption.
  rewrite (N.div_mod z 64) at 3 by lia. lia.
Qed.
End Base64Groups.

Lemma byte_lt_256 (b : byte) : (Byte.to_N b < 256)%N.
Proof. pose proof (Byte.to_N_bounded b). lia. Qed.

Lemma list_ind3 (A : Type) (P : list A -> Prop) :
  P [] -> (forall a, P [a]) -> (forall a b, P [a; b]) ->
  (forall a b c rest, P rest -> P (a :: b :: c :: rest)) ->
  forall l, P l.
Proof.
  intros H0 H1 H2 H3. fix IH 1. intros [|a [|b [|c rest]]].
  - exact H0.
  - apply H1.
  - apply H2.
  - apply H3, IH.
Qed.

(** Decoding what [b64encode] wrote gives the bytes back. *)
Lemma b64_roundtrip (bs : list byte) : b64decode (b64encode bs) = Some bs.
Proof.
  induction bs as [|a|a b|a b c rest IH] using list_ind3.
  - reflexivity.
  - pose proof (byte_lt_256 a) as Ha.
    cbn [b64encode b64decode].
    destruct (b64_char_ok (sextet_1 Ha)) as [-> _].
    destruct (b64_char_ok (sextet_2_pad Ha)) as [-> _].
    rewrite !N.eqb_refl. unfold bytes_of. cbn [fold_right].
    now rewrite (octet_1_pad Ha), Byte.of_to_N.
  - pose proof (byte_lt_256 a) as Ha. pose proof (byte_lt_256 b) as Hb.
    cbn [b64encode b64decode].
    destruct (b64_char_ok (sextet_1 Ha)) as [-> _].
    destruct (b64_char_ok (sextet_2 Ha Hb)) as [-> _].
    destruct (b64_char_ok (sextet_3_pad Hb)) as [-> [-> _]].
    rewrite N.eqb_refl. unfold bytes_of. cbn [fold_right].
    now rewrite (octet_1 Ha Hb), (octet_2_pad Ha Hb), !Byte.of_to_N.
  - pose proof (byte_lt_256 a) as Ha. pose proof (byte_lt_256 b) as Hb.
    pose proof (byte_lt_256 c) as Hc.
    cbn [b64encode app b64decode]. rewrite IH.
    destruct (b64_char_ok (sextet_1 Ha)) as [-> _].
    destruct (b64_char_ok (sextet_2 Ha Hb)) as [-> _].
    destruct (b64_char_ok (sextet_3 Hb Hc)) as [-> [-> _]].
    destruct (b64_char_ok (sextet_4 Hc)) as [-> [-> _]].
    unfold bytes_of. cbn [fold_right].
    rewrite (octet_1 Ha Hb), (octet_2 Ha Hb Hc), (octet_3 Hb Hc).
    now rewrite !Byte.of_to_N.
Qed.

(** ** The loop of [generate_html] *)

Lemma Ok_inj (A : Type) (a b : A) : Ok a = Ok b -> a = b.
Proof. congruence. Qed.

Section RendererFacts.
Context {U : Unicode}.

Lemma render_loop_on_disk (fs : directory) (ws : list wine) (html : str) :
  render_loop fs ws html = render_loop fs (on_disk fs ws) html.
Proof.
  revert html. induction ws as [|w ws IH]; intros html; [reflexivity|].
  unfold on_disk. cbn [render_loop filter].
  destruct (path_exists fs (photo w)) eqn:E.
  - cbn [render_loop]. rewrite E.
    destruct (image_to_base64 fs (photo w)); cbn [bind]; [|reflexivity].
    apply IH.
  - apply IH.
Qed.

Lemma render_loop_spec (fs : directory) (ws : list wine) (html : str) :
  render_loop fs ws html =
  if existsb (is_unreadable fs) ws then Raise OSError
  else Ok (html ++ concat (List.map (block_of fs) (on_disk fs ws))).
Proof.
  revert html. induction ws as [|w ws IH]; intros html.
  - simpl. now rewrite app_nil_r.
  - cbn [render_loop existsb]. unfold on_disk. cbn [filter].
    fold (on_disk fs ws).
    destruct (fs (photo w)) as [|content|] eqn:E.
    + assert (Hp : path_exists fs (photo w) = false)
        by (unfold path_exists; now rewrite E).
      assert (Hu : is_unreadable fs w = false)
        by (unfold is_unreadable; now rewrite E).
      rewrite Hp, Hu. apply IH.
    + assert (Hp : path_exists fs (photo w) = true)
        by (unfold path_exists; now rewrite E).
      assert (Hu : is_unreadable fs w = false)
        by (unfold is_unreadable; now rewrite E).
      assert (Hi : image_to_base64 fs (photo w) = Ok (b64encode content))
        by (unfold image_to_base64; now rewrite E).
      assert (Hb : block_of fs w = wine_block w (b64encode content))
        by (unfold block_of; now rewrite E).
      rewrite Hp, Hu, Hi. cbn [bind orb]. rewrite IH.
      destruct (existsb (is_unreadable fs) ws); [reflexivity|].
      cbn [List.map concat]. rewrite Hb. now rewrite <- !app_assoc.
    + assert (Hp : path_exists fs (photo w) = true)
        by (unfold path_exists; now rewrite E).
      assert (Hu : is_unreadable fs w = true)
        by (unfold is_unreadable; now rewrite E).
      assert (Hi : image_to_base64 fs (photo w) = Raise OSError)
        by (unfold image_to_base64; now rewrite E).
      rewrite Hp, Hu, Hi. reflexivity.
Qed.

Lemma on_disk_sorted (fs : directory) (wines : list wine) :
  on_disk fs (py_sorted rating true wines) =
  py_sorted rating true (on_disk fs wines).
Proof. apply filter_py_sorted. Qed.

(** The page is the head, the blocks of the wines on disk in sorted
    order, and the tail; it is an error when a photo exists and
    cannot be read. *)
Lemma generate_html_spec (wines : list wine) (fs : directory) :
  generate_html wines fs =
  if existsb (is_unreadable fs) (on_disk fs wines) then Raise OSError
  else Ok (html_head ++
           concat (List.map (block_of fs)
                     (py_sorted rating true (on_disk fs wines))) ++
           html_tail).
Proof.
  unfold generate_html. rewrite render_loop_on_disk, on_disk_sorted.
  rewrite render_loop_spec.
  assert (He : existsb (is_unreadable fs)
                 (py_sorted rating true (on_disk fs wines)) =
               existsb (is_unreadable fs) (on_disk fs wines)).
  { apply eq_true_iff_eq. rewrite !existsb_exists.
    split; intros [w [Hin Hw]]; exists w; (split; [|exact Hw]).
    - eapply Permutation_in; [apply Permutation_sym, py_sorted_perm|].
      exact Hin.
    - eapply Permutation_in; [apply py_sorted_perm | exact Hin]. }
  rewrite He. destruct (existsb (is_unreadable fs) (on_disk fs wines));
    cbn [bind]; [reflexivity|].
  assert (Hid : on_disk fs (py_sorted rating true (on_disk fs wines)) =
                py_sorted rating true (on_disk fs wines)).
  { rewrite on_disk_sorted. f_equal. unfold on_disk.
    rewrite <- (filter_ext_in (fun w => path_exists fs (photo w) &&
                                       path_exists fs (photo w))).
    - clear. induction wines as [|w ws IH]; [reflexivity|]. simpl.
      destruct (path_exists fs (photo w)) eqn:E; simpl; rewrite ?E.
      + simpl. now rewrite IH.
      + exact IH.
    - intros w _. now destruct (path_exists fs (photo w)). }
  rewrite Hid. now rewrite <- app_assoc.
Qed.

Lemma StronglySorted_nth (A : Type) (R : A -> A -> Prop) (l : list A)
    (i j : nat) (a b : A) :
  StronglySorted R l -> i < j ->
  nth_error l i = Some a -> nth_error l j = Some b -> R a b.
Proof.
  intros Hs. revert i j. induction Hs as [|x l Hs IH Hx]; intros i j Hij Ha Hb.
  - destruct i; discriminate.
  - destruct j as [|j]; [lia|]. simpl in Hb. destruct i as [|i].
    + injection Ha as <-. rewrite Forall_forall in Hx.
      apply Hx. eapply nth_error_In; eassumption.
    + simpl in Ha. apply (IH i j); [lia | assumption..].
Qed.
End RendererFacts.

(** ** The rendered page *)

Section RendererClaims.
Context {U : Unicode}.

(** C4: the page is the head, the blocks of a list [rendered] and the
    tail, where [rendered] holds the wines whose photo is on disk;
    a wine with a strictly higher rating has its block earlier, and
    the wines of one rating keep the order they had in the input. *)
Theorem blocks_sorted_by_rating
    (wines : list wine) (fs : directory) (html : str) :
  generate_html wines fs = Ok html ->
  exists rendered,
    html = html_head ++ concat (List.map (block_of fs) rendered)
             ++ html_tail /\
    Permutation rendered (on_disk fs wines) /\
    (forall i j a b,
       nth_error rendered i = Some a -> nth_error rendered j = Some b ->
       (rating a > rating b)%Z -> i < j) /\
    (forall r,
       with_key rating r rendered = with_key rating r (on_disk fs wines)).
Proof.
  rewrite generate_html_spec.
  destruct (existsb (is_unreadable fs) (on_disk fs wines)); [discriminate|].
  intros [= <-]. exists (py_sorted rating true (on_disk fs wines)).
  split; [reflexivity|]. split; [apply Permutation_sym, py_sorted_perm|].
  split; [|intros r; apply py_sorted_stable].
  intros i j a b Ha Hb Hgt.
  pose proof (py_sorted_sorted rating true (on_disk fs wines)) as Hs.
  destruct (Nat.lt_trichotomy i j) as [Hlt|[->|Hlt]]; [exact Hlt| |].
  - rewrite Ha in Hb. injection Hb as ->. lia.
  - pose proof (StronglySorted_nth Hs Hlt Hb Ha) as Hord.
    unfold in_order, stays_before in Hord.
    apply Z.ltb_ge in Hord. lia.
Qed.

Lemma on_disk_remove_missing
    (fs : directory) (l1 l2 : list wine) (w : wine) :
  fs (photo w) = Missing ->
  on_disk fs (l1 ++ w :: l2) = on_disk fs (l1 ++ l2).
Proof.
  intros Hm. unfold on_disk. rewrite !filter_app. cbn [filter].
  unfold path_exists at 2. now rewrite Hm.
Qed.

(** C5: a wine whose photo is not on disk changes nothing: the result
    of [generate_html], page or error, is the one of the list without
    this wine; and when no photo of the other wines is unreadable, a
    page is returned. *)
Theorem missing_photo_is_skipped
    (fs : directory) (l1 l2 : list wine) (w : wine) :
  fs (photo w) = Missing ->
  generate_html (l1 ++ w :: l2) fs = generate_html (l1 ++ l2) fs /\
  ~ In w (on_disk fs (l1 ++ w :: l2)) /\
  ((forall w', In w' (l1 ++ l2) -> fs (photo w') <> Unreadable) ->
   exists html, generate_html (l1 ++ w :: l2) fs = Ok html).
Proof.
  intros Hm. split; [|split].
  - rewrite !generate_html_spec.
    now rewrite on_disk_remove_missing by exact Hm.
  - unfold on_disk. rewrite filter_In. unfold path_exists. rewrite Hm.
    intros [_ H]. discriminate.
  - intros Hok. rewrite generate_html_spec.
    rewrite on_disk_remove_missing by exact Hm.
    destruct (existsb (is_unreadable fs) (on_disk fs (l1 ++ l2))) eqn:E;
      [|eauto].
    apply existsb_exists in E. destruct E as [w' [Hin Hu]].
    apply filter_In in Hin. destruct Hin as [Hin _].
    specialize (Hok w' Hin). unfold is_unreadable in Hu.
    destruct (fs (photo w')); congruence.
Qed.

Lemma on_disk_all_missing (fs : directory) (wines : list wine) :
  (forall w, In w wines -> fs (photo w) = Missing) ->
  on_disk fs wines = [].
Proof.
  intros H. induction wines as [|w ws IH]; [reflexivity|].
  unfold on_disk. cbn [filter]. unfold path_exists at 1.
  rewrite (H w) by now left. apply IH. intros w' Hw'. apply H. now right.
Qed.

(** C10: for the empty list, and for a list whose photos are all
    missing, [generate_html] returns the head followed by the tail;
    every page it returns starts with the head and ends with the
    tail; the head holds the doctype, the charset and viewport meta
    tags, the stylesheet, the search input and the wines container,
    the tail holds the filter script and closes the document. *)
Theorem shell_is_fixed :
  (forall fs, generate_html [] fs = Ok (html_head ++ html_tail)) /\
  (forall wines fs,
     (forall w, In w wines -> fs (photo w) = Missing) ->
     generate_html wines fs = Ok (html_head ++ html_tail)) /\
  (forall wines fs html,
     generate_html wines fs = Ok html ->
     exists body, html = html_head ++ body ++ html_tail) /\
  forallb (fun part => contains part html_head) shell_parts_head = true /\
  forallb (fun part => contains part html_tail) shell_parts_tail = true.
Proof.
  split; [|split; [|split; [|split]]].
  - intros fs. reflexivity.
  - intros wines fs H. rewrite generate_html_spec.
    now rewrite on_disk_all_missing by exact H.
  - intros wines fs html. rewrite generate_html_spec.
    destruct (existsb _ _); [discriminate|]. intros [= <-].
    eexists. reflexivity.
  - vm_compute. reflexivity.
  - vm_compute. reflexivity.
Qed.

Lemma concat_map_split (A : Type) (f : A -> str) (l1 l2 : list A) (x : A) :
  concat (List.map f (l1 ++ x :: l2)) =
  concat (List.map f l1) ++ f x ++ concat (List.map f l2).
Proof. now rewrite map_app, concat_app. Qed.

Lemma wine_block_data_uri (w : wine) (img : str) :
  exists a b,
    wine_block w img =
    a ++ quote ++ lit "data:image/jpeg;base64," ++ img ++ quote ++ b.
Proof.
  unfold wine_block.
  exists (nl ++
          lit "        <div class=" ++ quote ++ lit "wine" ++ quote
            ++ lit " data-search=" ++ quote ++ lower (comment w) ++ quote
            ++ lit ">" ++ nl ++
          lit "            <img src="),
         (lit ">" ++ nl ++
          lit "            <div class=" ++ quote ++ lit "rating" ++ quote
            ++ lit ">" ++ str_of_int (rating w) ++ lit "/10</div>" ++ nl ++
          lit "            <div class=" ++ quote ++ lit "comment" ++ quote
            ++ lit ">" ++ comment w ++ lit "</div>" ++ nl ++
          lit "        </div>" ++ nl).
  generalize (lower (comment w)) (comment w) (str_of_int (rating w)).
  intros l c r. now rewrite <- !app_assoc.
Qed.

(** C7: decoding what the encoder wrote gives the bytes back; and in
    a page, the block of a wine whose photo has the bytes [bs] holds
    a data URI whose payload, the text up to the closing quote,
    decodes to [bs]. *)
Theorem base64_roundtrip_in_page :
  (forall bs, b64decode (b64encode bs) = Some bs) /\
  (forall wines fs html w bs,
     generate_html wines fs = Ok html ->
     In w wines ->
     fs (photo w) = Regular bs ->
     exists pre post payload,
       html = pre ++ quote ++ lit "data:image/jpeg;base64," ++ payload
                ++ quote ++ post /\
       ~ In c_quote payload /\
       image_to_base64 fs (photo w) = Ok payload /\
       b64decode payload = Some bs).
Proof.
  split; [exact b64_roundtrip|].
  intros wines fs html w bs Hg Hin Hfs.
  rewrite generate_html_spec in Hg.
  destruct (existsb _ _); [discriminate|].
  apply Ok_inj in Hg. subst html.
  assert (Hr : In w (py_sorted rating true (on_disk fs wines))).
  { eapply Permutation_in; [apply py_sorted_perm|].
    apply filter_In. split; [exact Hin|].
    unfold path_exists. now rewrite Hfs. }
  apply in_split in Hr. destruct Hr as [r1 [r2 Hr]]. rewrite Hr.
  rewrite concat_map_split. unfold block_of at 2. rewrite Hfs.
  destruct (wine_block_data_uri w (b64encode bs)) as [a [b ->]].
  generalize (concat (List.map (block_of fs) r1)) as c1.
  generalize (concat (List.map (block_of fs) r2)) as c2.
  generalize html_head as hd. generalize html_tail as tl.
  intros tl hd c2 c1.
  exists (hd ++ c1 ++ a), (b ++ c2 ++ tl), (b64encode bs).
  split; [|split; [|split]].
  - now rewrite <- !app_assoc.
  - apply b64encode_no_quote.
  - unfold image_to_base64. now rewrite Hfs.
  - apply b64_roundtrip.
Qed.
End RendererClaims.

(** ** The statements at sample inputs *)

Example parse_ex_nebbiolo :
  parse_chat (U := ascii_db) ex_nebbiolo = Ok [ex_nebbiolo_wine].
Proof. vm_compute. reflexivity. Qed.

Example parse_ex_unrated :
  parse_chat (U := ascii_db) ex_unrated = Ok [ex_unrated_wine].
Proof. vm_compute. reflexivity. Qed.

Example render_ex_order :
  generate_html (U := ascii_db) [ex_wine_a; ex_wine_gone; ex_wine_b] ex_dir =
  Ok (html_head
        ++ wine_block (U := ascii_db) ex_wine_b (lit "TWE=")
        ++ wine_block (U := ascii_db) ex_wine_a (lit "TWFu")
        ++ html_tail).
Proof. vm_compute. reflexivity. Qed.

Lemma rating_is_clamped_first_run_witness :
  (rating ex_clamp_wine <= 10)%Z /\
  exists i next suffix run,
    record_at (U := ascii_db) ex_clamp i = Ok (Some ex_clamp_wine) /\
    nth_error ex_clamp (S i) = Some next /\
    is_suffix_after_last c_rbracket next suffix /\
    is_first_digit_run (U := ascii_db) suffix run /\
    ((decimal_value (U := ascii_db) run <= 10)%Z ->
     rating ex_clamp_wine = decimal_value (U := ascii_db) run) /\
    ((decimal_value (U := ascii_db) run > 10)%Z ->
     rating ex_clamp_wine = 10%Z).
Proof.
  apply (@rating_is_clamped_first_run ascii_db ex_clamp [ex_clamp_wine]).
  - vm_compute. reflexivity.
  - simpl. left. reflexivity.
Defined.

Lemma rating_in_range_witness : (0 <= rating ex_unrated_wine <= 10)%Z.
Proof.
  apply (@rating_in_range ascii_db ex_unrated [ex_unrated_wine]).
  - vm_compute. reflexivity.
  - simpl. left. reflexivity.
Defined.

Lemma no_digit_no_record_witness :
  record_at (U := ascii_db) ex_unrated 0 = Ok None /\
  parse_chat (U := ascii_db) ex_unrated =
    Ok (flat_map (wines_at (U := ascii_db) ex_unrated) (seq 0 0) ++
        flat_map (wines_at (U := ascii_db) ex_unrated)
          (seq 1 (length ex_unrated - 1))).
Proof.
  apply (@no_digit_no_record ascii_db ex_unrated 0
           (lit "[12:01] no rating here") (lit " no rating here")).
  - reflexivity.
  - right. exists (lit "[12:01"). split; [reflexivity|].
    vm_compute. intuition discriminate.
  - intros c Hc. vm_compute in Hc.
    repeat (destruct Hc as [<-|Hc]; [reflexivity|]). destruct Hc.
Defined.

Lemma record_needs_marker_and_jpg_witness :
  (forall w,
     record_at (U := ascii_db) ex_nebbiolo 0 = Ok (Some w) ->
     (exists pre post,
        lit "<attached: photo1.jpg>" =
        pre ++ lit "<attached: " ++ photo w ++ lit ">" ++ post) /\
     photo w <> [] /\
     is_substring (lit ".jpg")
       (lower (strip (U := ascii_db) (lit "<attached: photo1.jpg>")))) /\
  (~ is_substring (lit ".jpg")
       (lower (strip (U := ascii_db) (lit "<attached: photo1.jpg>"))) ->
   record_at (U := ascii_db) ex_nebbiolo 0 = Ok None).
Proof.
  apply (@record_needs_marker_and_jpg ascii_db ex_nebbiolo 0).
  reflexivity.
Defined.

(** C2, as stated, fails: the line of index 0 of [ex_jpg_outside] gives
    a record although its marker content, [tasting.pdf], does not
    contain [.jpg] in any case; [.jpg] stands elsewhere on the line. *)
Lemma record_without_jpg_in_marker :
  nth_error ex_jpg_outside 0 = Some (lit "label.jpg <attached: tasting.pdf>") /\
  record_at (U := ascii_db) ex_jpg_outside 0 = Ok (Some ex_jpg_outside_wine) /\
  parse_chat (U := ascii_db) ex_jpg_outside = Ok [ex_jpg_outside_wine] /\
  photo ex_jpg_outside_wine = lit "tasting.pdf" /\
  ~ is_substring (lit ".jpg") (lower (Unicode := ascii_db) (lit "tasting.pdf")).
Proof.
  split; [reflexivity|]. split; [vm_compute; reflexivity|].
  split; [vm_compute; reflexivity|]. split; [reflexivity|].
  intros H. apply contains_spec in H. vm_compute in H. discriminate.
Qed.

Lemma comment_of_trimmed_line_witness :
  exists next trimmed suffix,
    nth_error ex_nebbiolo 1 = Some next /\
    is_trimmed (U := ascii_db) next trimmed /\
    is_suffix_after_last c_rbracket trimmed suffix /\
    is_comment_of (U := ascii_db) suffix (comment ex_nebbiolo_wine).
Proof.
  apply (@comment_of_trimmed_line ascii_db ex_nebbiolo 0 ex_nebbiolo_wine).
  vm_compute. reflexivity.
Defined.

(** C3, as stated, fails: the rating line of [ex_indented] has no
    bracket, so what follows its last bracket is the whole line; it
    starts with a space, not with a digit, and yet the comment of the
    record is [good], not the trimmed line [7 good]. *)
Lemma comment_not_from_raw_line :
  nth_error ex_indented 1 = Some (lit "  7 good") /\
  record_at (U := ascii_db) ex_indented 0 = Ok (Some ex_indented_wine) /\
  comment ex_indented_wine = lit "good" /\
  forall suffix,
    is_suffix_after_last c_rbracket (lit "  7 good") suffix ->
    ~ starts_with_digit (U := ascii_db) suffix /\
    is_trimmed (U := ascii_db) suffix (lit "7 good") /\
    ~ is_comment_of (U := ascii_db) suffix (comment ex_indented_wine).
Proof.
  split; [reflexivity|]. split; [vm_compute; reflexivity|].
  split; [reflexivity|].
  intros suffix Hs. apply last_field_spec in Hs. vm_compute in Hs.
  subst suffix.
  assert (Hd : ~ starts_with_digit (U := ascii_db) [32; 32; 55; 32; 103; 111; 111; 100]%N).
  { simpl. discriminate. }
  split; [exact Hd|]. split.
  - exists (lit "  "), []. repeat split; simpl; discriminate.
  - intros [_ [H _]]. specialize (H Hd).
    apply is_trimmed_strip in H. vm_compute in H. discriminate.
Qed.

Lemma blocks_sorted_by_rating_witness :
  exists rendered,
    html_head
      ++ wine_block (U := ascii_db) ex_wine_b (lit "TWE=")
      ++ wine_block (U := ascii_db) ex_wine_a (lit "TWFu")
      ++ html_tail =
    html_head ++ concat (List.map (block_of (U := ascii_db) ex_dir) rendered)
      ++ html_tail /\
    Permutation rendered
      (on_disk ex_dir [ex_wine_a; ex_wine_gone; ex_wine_b]) /\
    (forall i j a b,
       nth_error rendered i = Some a -> nth_error rendered j = Some b ->
       (rating a > rating b)%Z -> i < j) /\
    (forall r,
       with_key rating r rendered =
       with_key rating r (on_disk ex_dir [ex_wine_a; ex_wine_gone; ex_wine_b])).
Proof.
  apply (@blocks_sorted_by_rating ascii_db).
  vm_compute. reflexivity.
Defined.

Lemma missing_photo_is_skipped_witness :
  generate_html (U := ascii_db) ([ex_wine_a] ++ ex_wine_gone :: [ex_wine_b])
    ex_dir =
  generate_html (U := ascii_db) ([ex_wine_a] ++ [ex_wine_b]) ex_dir /\
  ~ In ex_wine_gone
      (on_disk ex_dir ([ex_wine_a] ++ ex_wine_gone :: [ex_wine_b])) /\
  ((forall w', In w' ([ex_wine_a] ++ [ex_wine_b]) ->
               ex_dir (photo w') <> Unreadable) ->
   exists html,
     generate_html (U := ascii_db)
       ([ex_wine_a] ++ ex_wine_gone :: [ex_wine_b]) ex_dir = Ok html).
Proof.
  apply (@missing_photo_is_skipped ascii_db ex_dir [ex_wine_a] [ex_wine_b]).
  vm_compute. reflexivity.
Defined.

Lemma shell_is_fixed_witness :
  generate_html (U := ascii_db) [ex_wine_gone] ex_dir =
  Ok (html_head ++ html_tail).
Proof.
  destruct (@shell_is_fixed ascii_db) as [_ [H _]]. apply H.
  intros w [<-|[]]. vm_compute. reflexivity.
Defined.

Lemma base64_roundtrip_in_page_witness :
  exists pre post payload,
    html_head
      ++ wine_block (U := ascii_db) ex_wine_b (lit "TWE=")
      ++ wine_block (U := ascii_db) ex_wine_a (lit "TWFu")
      ++ html_tail =
    pre ++ quote ++ lit "data:image/jpeg;base64," ++ payload ++ quote ++ post /\
    ~ In c_quote payload /\
    image_to_base64 ex_dir (photo ex_wine_b) = Ok payload /\
    b64decode payload = Some [x4d; x61].
Proof.
  destruct (@base64_roundtrip_in_page ascii_db) as [_ H].
  apply (H [ex_wine_a; ex_wine_gone; ex_wine_b] ex_dir).
  - vm_compute. reflexivity.
  - simpl. right. right. left. reflexivity.
  - vm_compute. reflexivity.
Defined.

(** * Further properties *)

(** ** When a line gives a record *)

Lemma until_gt_complete (g post : str) :
  ~ In c_newline g -> exists g', until_gt (g ++ c_gt :: post) = Some g'.
Proof.
  induction g as [|c g IH]; intros Hnl; simpl.
  - eauto.
  - destruct (N.eqb c c_gt); [eauto|].
    destruct (N.eqb_spec c c_newline) as [->|_]; [simpl in Hnl; tauto|].
    destruct IH as [g' ->]; [simpl in Hnl; tauto|]. simpl. eauto.
Qed.

Lemma match_attached_complete (name post : str) :
  name <> [] -> ~ In c_newline name ->
  exists g, match_attached (attached_prefix ++ name ++ c_gt :: post) = Some g.
Proof.
  intros Hne Hnl. unfold match_attached.
  assert (Hs : starts_with attached_prefix
                 (attached_prefix ++ name ++ c_gt :: post) = true).
  { apply starts_with_spec. eauto. }
  rewrite Hs, skipn_app, skipn_all, Nat.sub_diag. cbn [skipn app].
  destruct name as [|c name]; [congruence|]. cbn [app dot_plus_lazy_gt].
  destruct (N.eqb_spec c c_newline) as [->|_]; [simpl in Hnl; tauto|].
  destruct (until_gt_complete name post) as [g' ->]; [simpl in Hnl; tauto|].
  simpl. eauto.
Qed.

Lemma search_attached_app (pre s : str) (g : str) :
  match_attached s = Some g -> exists g', search_attached (pre ++ s) = Some g'.
Proof.
  intros Hm. induction pre as [|c pre IH].
  - destruct s; cbn [app search_attached]; rewrite Hm; eauto.
  - cbn [app search_attached].
    destruct (match_attached (c :: pre ++ s)); [eauto | exact IH].
Qed.

(** [re.search] finds a match exactly in the strings that hold a
    marker. *)
Lemma search_attached_iff (s : str) :
  (exists g, search_attached s = Some g) <-> has_marker s.
Proof.
  split.
  - intros [g Hg]. apply search_attached_some in Hg.
    destruct Hg as [pre [post [Hs [Hne [Hnl _]]]]].
    now exists pre, g, post.
  - intros [pre [name [post [-> [Hne Hnl]]]]].
    destruct (match_attached_complete post Hne Hnl) as [g Hg].
    now apply search_attached_app with (g := g).
Qed.

Section RecordFacts.
Context {U : Unicode}.

Lemma search_digits_iff (s : str) :
  (exists run, search_digits s = Some run) <-> has_digit s.
Proof.
  split.
  - intros [run Hr]. apply search_digits_some in Hr.
    destruct Hr as [pre [post [-> [_ [Hne [Hd _]]]]]].
    destruct run as [|c run]; [congruence|]. exists c. split.
    + rewrite !in_app_iff. right. left. now left.
    + unfold all_decimal in Hd. simpl in Hd. now apply andb_prop in Hd.
  - intros [c [Hin Hc]]. destruct (search_digits s) as [run|] eqn:E; [eauto|].
    apply search_digits_none in E. rewrite (E c Hin) in Hc. discriminate.
Qed.


(** X2: the photo of a record is the name of the first marker of the
    trimmed line that matches, and the shortest name there: no match
    starts further left, and no [>] stands in the name after its first
    character. *)
Theorem photo_is_leftmost_shortest (lines : list str) (i : nat) (w : wine) :
  record_at lines i = Ok (Some w) ->
  exists raw pre post,
    nth_error lines i = Some raw /\
    strip raw = pre ++ attached_prefix ++ photo w ++ c_gt :: post /\
    ~ In c_newline (photo w) /\
    ~ In c_gt (tl (photo w)) /\
    (forall pre' rest,
       strip raw = pre' ++ rest -> length pre' < length pre ->
       match_attached rest = None).
Proof.
  intros Hw. apply record_at_some in Hw.
  destruct Hw as [raw [next [run [Hi [_ [_ [_ [Hs _]]]]]]]].
  exists raw. revert Hs. generalize (strip raw) as s. generalize (photo w) as g.
  intros g s. induction s as [|c s IH]; [cbn; discriminate|].
  cbn [search_attached]. destruct (match_attached (c :: s)) as [g'|] eqn:E.
  - intros [= ->]. apply match_attached_some in E.
    destruct E as [post [Hs [_ [Hnl Hgt]]]].
    exists [], post. repeat split; try assumption.
    intros pre' rest _ Hlen. simpl in Hlen. lia.
  - intros Hs. destruct (IH Hs) as [pre [post [_ [-> [Hnl [Hgt Hleft]]]]]].
    exists (c :: pre), post. split; [exact Hi|]. split; [reflexivity|].
    split; [exact Hnl|]. split; [exact Hgt|].
    intros [|c' pre'] rest Heq Hlen.
    + simpl in Heq. subst rest. exact E.
    + injection Heq as _ Heq. apply (Hleft pre' rest Heq).
      simpl in Hlen. lia.
Qed.

(** X3: the comment of a record has no whitespace at its two ends. *)
Theorem comment_is_trimmed (lines : list str) (ws : list wine) (w : wine) :
  parse_chat lines = Ok ws -> In w ws ->
  ~ starts_with_space (comment w) /\ ~ ends_with_space (comment w).
Proof.
  intros Hp Hin. destruct (@parse_chat_In U lines ws w Hp Hin) as [i Hi].
  apply record_at_some in Hi.
  destruct Hi as [raw [next [run [_ [_ [_ [_ [_ [_ [_ Hc]]]]]]]]]].
  rewrite Hc.
  destruct (strip_is_trimmed
              (sub_leading_digits (last_field c_rbracket (strip next))))
    as [w1 [w2 [_ [_ [_ [Hs He]]]]]].
  split; assumption.
Qed.
End RecordFacts.

(** ** The transcript as a whole *)

Lemma flat_map_seq_shift (A : Type) (f g : nat -> list A) (k a b : nat) :
  (forall j, j < k -> f (a + j) = g (b + j)) ->
  flat_map f (seq a k) = flat_map g (seq b k).
Proof.
  revert a b. induction k as [|k IH]; intros a b H; [reflexivity|].
  cbn [seq flat_map]. f_equal.
  - specialize (H 0). rewrite !Nat.add_0_r in H. apply H. lia.
  - apply IH. intros j Hj. specialize (H (S j)).
    rewrite <- !Nat.add_succ_comm in H. apply H. lia.
Qed.

Lemma length_flat_map_le (A : Type) (f : nat -> list A) (l : list nat) :
  (forall i, length (f i) <= 1) -> length (flat_map f l) <= length l.
Proof.
  intros H. induction l as [|i l IH]; [simpl; lia|].
  cbn [flat_map]. rewrite length_app. specialize (H i). simpl. lia.
Qed.

Section TranscriptFacts.
Context {U : Unicode}.

Lemma ltb_length_nth_error (A : Type) (l : list A) (i : nat) :
  (i <? length l) = match nth_error l i with Some _ => true | None => false end.
Proof.
  destruct (nth_error l i) eqn:E.
  - apply Nat.ltb_lt, nth_error_Some. congruence.
  - apply Nat.ltb_ge, nth_error_None. exact E.
Qed.

(** The loop body reads the lines of index [i] and [i + 1] only. *)
Lemma record_at_local (l1 l2 : list str) (i j : nat) :
  nth_error l1 i = nth_error l2 j ->
  nth_error l1 (S i) = nth_error l2 (S j) ->
  record_at l1 i = record_at l2 j.
Proof.
  intros H0 H1. unfold record_at, getitem.
  rewrite !Nat.add_1_r, !ltb_length_nth_error, H0, H1. reflexivity.
Qed.

Lemma wines_at_local (l1 l2 : list str) (i j : nat) :
  nth_error l1 i = nth_error l2 j ->
  nth_error l1 (S i) = nth_error l2 (S j) ->
  wines_at l1 i = wines_at l2 j.
Proof.
  intros H0 H1. unfold wines_at.
  now rewrite (@record_at_local l1 l2 i j H0 H1).
Qed.

Lemma length_wines_at (lines : list str) (i : nat) :
  length (wines_at lines i) <= 1.
Proof.
  unfold wines_at. destruct (record_at lines i) as [[w|]|e]; simpl; lia.
Qed.


End TranscriptFacts.

(** ** The encoded photo *)

Lemma b64_char_in_text (n : N) : In (b64_char n) b64_alphabet \/ b64_char n = c_equals.
Proof.
  unfold b64_char.
  destruct (nth_in_or_default (N.to_nat n) b64_alphabet c_equals); auto.
Qed.

Lemma b64encode_text (bs : list byte) : is_b64_text (b64encode bs).
Proof.
  unfold is_b64_text.
  induction bs as [|a|a b|a b c rest IH] using list_ind3; intros x Hx.
  - destruct Hx.
  - simpl in Hx. destruct Hx as [<-|[<-|[<-|[<-|[]]]]];
      auto using b64_char_in_text.
  - simpl in Hx. destruct Hx as [<-|[<-|[<-|[<-|[]]]]];
      auto using b64_char_in_text.
  - cbn [b64encode] in Hx. apply in_app_or in Hx. destruct Hx as [Hx|Hx].
    + simpl in Hx. destruct Hx as [<-|[<-|[<-|[<-|[]]]]];
        auto using b64_char_in_text.
    + now apply IH.
Qed.

Lemma b64encode_length (bs : list byte) :
  length (b64encode bs) = 4 * ((length bs + 2) / 3).
Proof.
  induction bs as [|a|a b|a b c rest IH] using list_ind3;
    try reflexivity.
  cbn [b64encode]. rewrite length_app, IH. cbn [length].
  replace (S (S (S (length rest))) + 2) with (length rest + 2 + 1 * 3) by lia.
  rewrite Nat.div_add by lia. lia.
Qed.

(** X6: [image_to_base64] returns a text only for a file that can be
    read; the text has four characters for every three bytes of the
    file, the last group padded, and is made of the letters of the
    base64 alphabet and of the padding sign only. *)
Theorem image_to_base64_shape (fs : directory) (name text : str) :
  image_to_base64 fs name = Ok text ->
  exists content,
    fs name = Regular content /\
    length text = 4 * ((length content + 2) / 3) /\
    is_b64_text text.
Proof.
  unfold image_to_base64. destruct (fs name) as [|content|]; try discriminate.
  intros [= <-]. exists content. split; [reflexivity|].
  split; [apply b64encode_length | apply b64encode_text].
Qed.

(** ** The page as a whole *)

Section PageFacts.
Context {U : Unicode}.

Lemma existsb_unreadable_on_disk (fs : directory) (wines : list wine) :
  existsb (is_unreadable fs) (on_disk fs wines) = true <->
  exists w, In w wines /\ fs (photo w) = Unreadable.
Proof.
  rewrite existsb_exists. split.
  - intros [w [Hin Hu]]. apply filter_In in Hin. exists w.
    split; [tauto|]. unfold is_unreadable in Hu.
    destruct (fs (photo w)); congruence.
  - intros [w [Hin Hu]]. exists w. split.
    + apply filter_In. split; [exact Hin|]. unfold path_exists. now rewrite Hu.
    + unfold is_unreadable. now rewrite Hu.
Qed.

(** X7: [generate_html] fails exactly when the photo of some wine
    exists and cannot be read, and then with the error of the read;
    otherwise it returns a page.  A missing photo is no error. *)
Theorem generate_html_error_iff (wines : list wine) (fs : directory) :
  ((exists w, In w wines /\ fs (photo w) = Unreadable) /\
   generate_html wines fs = Raise OSError) \/
  ((forall w, In w wines -> fs (photo w) <> Unreadable) /\
   exists html, generate_html wines fs = Ok html).
Proof.
  rewrite generate_html_spec.
  destruct (existsb (is_unreadable fs) (on_disk fs wines)) eqn:E.
  - left. split; [now apply existsb_unreadable_on_disk | reflexivity].
  - right. split; [|eauto]. intros w Hin Hu.
    assert (H : existsb (is_unreadable fs) (on_disk fs wines) = true)
      by (apply existsb_unreadable_on_disk; eauto).
    congruence.
Qed.

(** X8: the page depends on the order of the wines only through the
    order of the wines of each rating: two lists with the same wines of
    every rating, in the same order, give the same result. *)
Theorem generate_html_order (l1 l2 : list wine) (fs : directory) :
  (forall r, with_key rating r l1 = with_key rating r l2) ->
  generate_html l1 fs = generate_html l2 fs.
Proof.
  intros H. unfold generate_html.
  assert (Hs : py_sorted rating true l1 = py_sorted rating true l2).
  { apply py_sorted_unique; [apply py_sorted_sorted|].
    intros r. now rewrite py_sorted_stable. }
  now rewrite Hs.
Qed.

Lemma on_disk_idem (fs : directory) (wines : list wine) :
  on_disk fs (on_disk fs wines) = on_disk fs wines.
Proof.
  unfold on_disk. induction wines as [|w ws IH]; [reflexivity|].
  cbn [filter]. destruct (path_exists fs (photo w)) eqn:E; [|exact IH].
  cbn [filter]. rewrite E. now rewrite IH.
Qed.

(** X9: sorting all the wines and skipping the missing photos in the
    loop, as the code does, gives what dropping the wines without photo
    first would give; and a list already sorted gives the same page. *)
Theorem generate_html_filter_first (wines : list wine) (fs : directory) :
  generate_html (on_disk fs wines) fs = generate_html wines fs /\
  generate_html (py_sorted rating true wines) fs = generate_html wines fs.
Proof.
  split.
  - rewrite !generate_html_spec. now rewrite on_disk_idem.
  - apply generate_html_order. intros r. apply py_sorted_stable.
Qed.
End PageFacts.

(** ** The run of the script *)

Section MainFacts.
Context {U : Unicode}.

Lemma parse_chat_file_chat (lines : list str) :
  parse_chat_file (Chat lines) =
  Ok (flat_map (wines_at lines) (seq 0 (length lines))).
Proof. unfold parse_chat_file. cbn [read_lines bind]. apply parse_chat_spec. Qed.

(** The run, case by case. *)
Lemma run_main_spec (e : world) (argv : list str) :
  run_main e argv =
  if length argv <? 2 then
    ({| printed :=
          [lit "Usage: python wine_ratings.py /path/to/whatsapp/export/"];
        written := None |}, SysExit 1)
  else
    let dir := nth 1 argv [] in
    match chat_file e dir with
    | NoChat =>
        ({| printed := [lit "Error: " ++ path_text e dir (lit "_chat.txt")
                          ++ lit " not found"];
            written := None |}, SysExit 1)
    | BadChat =>
        ({| printed := [lit "Parsing chat..."]; written := None |},
         Uncaught OSError)
    | Chat lines =>
        let ws := flat_map (wines_at lines) (seq 0 (length lines)) in
        match generate_html ws (photos e dir) with
        | Raise x =>
            ({| printed := firstn 3 (progress_lines e dir (length ws));
                written := None |}, Uncaught x)
        | Ok html =>
            if writable e dir then
              ({| printed := progress_lines e dir (length ws);
                  written :=
                    Some (path_text e dir (lit "wine_ratings.html"), html) |},
               Returned)
            else
              ({| printed := firstn 3 (progress_lines e dir (length ws));
                  written := None |}, Uncaught OSError)
        end
    end.
Proof.
  unfold run_main, main. destruct (length argv <? 2); [reflexivity|].
  cbv zeta. destruct (chat_file e (nth 1 argv [])) as [|lines|].
  - reflexivity.
  - unfold pbind at 1. cbn [ret]. unfold pbind at 1. cbn [print printed written app].
    unfold pbind at 1. rewrite parse_chat_file_chat. cbn [call].
    set (ws := flat_map (wines_at lines) (seq 0 (length lines))).
    unfold pbind at 1. cbn [print printed written app].
    unfold pbind at 1. cbn [print printed written app].
    unfold pbind at 1.
    destruct (generate_html ws (photos e (nth 1 argv []))) as [html|x];
      cbn [call]; [|reflexivity].
    unfold pbind at 1, write_file.
    destruct (writable e (nth 1 argv [])); reflexivity.
  - reflexivity.
Qed.



End MainFacts.

(** ** A rating after a bracket and a space *)

Section BracketFacts.
Context {U : Unicode}.

Lemma strip_app_space (b w : str) : all_space w -> strip (b ++ w) = strip b.
Proof.
  intros Hw. apply is_trimmed_strip.
  destruct (strip_is_trimmed b) as [u1 [u2 [Hb [H1 [H2 [Hs He]]]]]].
  exists u1, (u2 ++ w). repeat split; try assumption.
  - rewrite Hb at 1. now rewrite <- !app_assoc.
  - unfold all_space in *. rewrite forallb_app. now rewrite H2, Hw.
Qed.

Lemma search_digits_strip_plain (b : str) :
  search_digits (strip b) = search_digits b.
Proof.
  destruct (strip_is_trimmed b) as [u1 [u2 [Hb [H1 [H2 _]]]]].
  rewrite Hb at 2.
  rewrite search_digits_app_l by now apply all_space_no_digit.
  now rewrite search_digits_app_r by now apply all_space_no_digit.
Qed.

(** The text after the last bracket of a trimmed line, when the line
    has a bracket: the text after the last bracket of the line, less the
    whitespace at its end. *)
Lemma last_field_strip_bracket (pre suffix : str) :
  ~ In c_rbracket suffix ->
  exists b w,
    last_field c_rbracket (strip (pre ++ c_rbracket :: suffix)) = b /\
    suffix = b ++ w /\ all_space w.
Proof.
  intros Hno. set (next := pre ++ c_rbracket :: suffix).
  destruct (strip_is_trimmed next) as [w1 [w2 [Hn [H1 [H2 _]]]]].
  destruct (last_occurrence c_rbracket (strip next)) as [Ht | [a [b [Ht Hb]]]].
  - exfalso. assert (Hin : In c_rbracket next).
    { unfold next. apply in_or_app. right. now left. }
    rewrite Hn, !in_app_iff in Hin. destruct Hin as [H|[H|H]].
    + now apply (all_space_no_rbracket H1).
    + now apply Ht.
    + now apply (all_space_no_rbracket H2).
  - exists b, w2. rewrite Ht, last_field_app by exact Hb.
    split; [reflexivity|]. split; [|exact H2].
    assert (Hb2 : ~ In c_rbracket (b ++ w2)).
    { rewrite in_app_iff. intros [H|H]; [tauto|].
      now apply (all_space_no_rbracket H2). }
    assert (E1 : last_field c_rbracket next = suffix)
      by (unfold next; now apply last_field_app).
    rewrite Hn, Ht in E1.
    replace (w1 ++ (a ++ c_rbracket :: b) ++ w2)
      with ((w1 ++ a) ++ c_rbracket :: (b ++ w2)) in E1
      by (now rewrite <- !app_assoc).
    rewrite last_field_app in E1 by exact Hb2. now symmetry.
Qed.

(** X13: when the rating line has a bracket and the text after its last
    bracket starts with whitespace, as in [[12:01] 8 Lovely], nothing
    is removed from that text but the whitespace at its ends: the
    comment is the trimmed text, and the digits of the rating are still
    in it, as its first run of digits. *)
Theorem comment_keeps_rating_after_bracket
    (lines : list str) (i : nat) (w : wine) (pre suffix : str) :
  record_at lines i = Ok (Some w) ->
  nth_error lines (S i) = Some (pre ++ c_rbracket :: suffix) ->
  ~ In c_rbracket suffix ->
  starts_with_space suffix ->
  is_trimmed suffix (comment w) /\
  exists run,
    is_first_digit_run (comment w) run /\
    rating w = clamp (decimal_value run).
Proof.
  intros Hw Hn Hno Hsp. apply record_at_some in Hw.
  destruct Hw as [raw [next [run [_ [Hn' [_ [_ [_ [Hd [Hr Hc]]]]]]]]]].
  rewrite Hn in Hn'. injection Hn' as <-.
  destruct (@last_field_strip_bracket pre suffix Hno)
    as [b [w2 [Hb [Hs Hw2]]]].
  rewrite Hb in Hd, Hc.
  assert (Hsub : sub_leading_digits b = b).
  { unfold sub_leading_digits. destruct b as [|c b]; [reflexivity|].
    rewrite Hs in Hsp. simpl in Hsp. cbn [take_while].
    now rewrite (@space_not_decimal U c Hsp). }
  rewrite Hsub in Hc. split.
  - assert (E : comment w = strip suffix).
    { rewrite Hc, Hs. symmetry. now apply strip_app_space. }
    rewrite E. apply strip_is_trimmed.
  - exists run. split.
    + rewrite Hc. apply search_digits_some.
      now rewrite search_digits_strip_plain.
    + now rewrite Hr, int_of_digits_value.
Qed.
End BracketFacts.

(** ** The further statements at sample inputs *)

Example run_ex_world :
  run_main (U := ascii_db) ex_world [lit "wine_ratings.py"; lit "export"] =
  ({| printed :=
        [ lit "Parsing chat..."; lit "Found 1 wines";
          lit "Generating HTML..."; lit "Done! Open export/wine_ratings.html" ];
      written :=
        Some (lit "export/wine_ratings.html",
              html_head
                ++ wine_block (U := ascii_db) ex_unrated_wine (lit "TWE=")
                ++ html_tail) |},
   Returned).
Proof. vm_compute. reflexivity. Qed.


Lemma photo_is_leftmost_shortest_witness :
  exists raw pre post,
    nth_error ex_jpg_outside 0 = Some raw /\
    strip (U := ascii_db) raw =
      pre ++ attached_prefix ++ photo ex_jpg_outside_wine ++ c_gt :: post /\
    ~ In c_newline (photo ex_jpg_outside_wine) /\
    ~ In c_gt (tl (photo ex_jpg_outside_wine)) /\
    (forall pre' rest,
       strip (U := ascii_db) raw = pre' ++ rest ->
       length pre' < length pre ->
       match_attached rest = None).
Proof.
  apply (@photo_is_leftmost_shortest ascii_db ex_jpg_outside 0).
  vm_compute. reflexivity.
Defined.

Lemma comment_is_trimmed_witness :
  ~ starts_with_space (U := ascii_db) (comment ex_nebbiolo_wine) /\
  ~ ends_with_space (U := ascii_db) (comment ex_nebbiolo_wine).
Proof.
  apply (@comment_is_trimmed ascii_db ex_nebbiolo [ex_nebbiolo_wine]).
  - vm_compute. reflexivity.
  - simpl. left. reflexivity.
Defined.

Lemma image_to_base64_shape_witness :
  exists content,
    ex_dir (lit "b.jpg") = Regular content /\
    length (lit "TWE=") = 4 * ((length content + 2) / 3) /\
    is_b64_text (lit "TWE=").
Proof.
  apply (@image_to_base64_shape ex_dir (lit "b.jpg") (lit "TWE=")).
  vm_compute. reflexivity.
Defined.

Lemma generate_html_order_witness :
  generate_html (U := ascii_db) [ex_wine_a; ex_wine_b] ex_dir =
  generate_html (U := ascii_db) [ex_wine_b; ex_wine_a] ex_dir.
Proof.
  apply (@generate_html_order ascii_db).
  intros r. unfold with_key, ex_wine_a, ex_wine_b. cbn [filter rating].
  destruct (Z.eqb_spec 4 r), (Z.eqb_spec 9 r); try reflexivity. lia.
Defined.




Lemma comment_keeps_rating_after_bracket_witness :
  is_trimmed (U := ascii_db) (lit " 8 Lovely nebbiolo")
    (comment ex_nebbiolo_wine) /\
  exists run,
    is_first_digit_run (U := ascii_db) (comment ex_nebbiolo_wine) run /\
    rating ex_nebbiolo_wine = clamp (decimal_value (U := ascii_db) run).
Proof.
  apply (@comment_keeps_rating_after_bracket ascii_db ex_nebbiolo 0
           ex_nebbiolo_wine (lit "[12:01") (lit " 8 Lovely nebbiolo")).
  - vm_compute. reflexivity.
  - reflexivity.
  - vm_compute. intuition discriminate.
  - reflexivity.
Defined.
